(** * PyRDF: the Parsl backend and the package entry points

  A shallow embedding of [PyRDF/backend/Parsl.py] and [PyRDF/__init__.py].
  Python values are modelled by the types the code manipulates, exceptions
  by an inductive type of the built-in exception classes that the code can
  raise, and module-level or object state by explicit state passing. *)

From Stdlib Require Import ZArith Lia.
From stdpp Require Import base option list gmap sets strings.

Open Scope string_scope.
Open Scope list_scope.

Set Warnings "-register-all,-clear-no-such-hyp".

(** ** Python exceptions and outcomes *)

Module Py.

(** The values of a configuration dictionary that are not dictionaries:
    [None], integers and strings. *)
Inductive atom : Type :=
| ANone
| AInt (z : Z)
| AStr (s : string).

(** A string stands for the Python value that it is. *)
Coercion AStr : string >-> atom.

(** The built-in exception classes that the modelled code raises;
    [KeyError] holds the key that was not found. *)
Inductive exn : Type :=
| IndexError (msg : string)
| KeyError (key : atom)
| AttributeError (cls attr : string)
| TypeError (msg : string)
| ValueError (msg : string)
| NotImplementedError (msg : string)
| RuntimeError (msg : string)
| Exception (msg : string).

Definition class_name (e : exn) : string :=
  match e with
  | IndexError _ => "IndexError"
  | KeyError _ => "KeyError"
  | AttributeError _ _ => "AttributeError"
  | TypeError _ => "TypeError"
  | ValueError _ => "ValueError"
  | NotImplementedError _ => "NotImplementedError"
  | RuntimeError _ => "RuntimeError"
  | Exception _ => "Exception"
  end.

(** The outcome of running a piece of code: a value, a raised exception, a
    call that never returns because it waits for a future that never
    completes, or a loop that used up the fuel of the model. *)
Inductive outcome (T : Type) : Type :=
| Ok (v : T)
| Raise (e : exn)
| Blocked
| OutOfFuel.
Arguments Ok {T} v.
Arguments Raise {T} e.
Arguments Blocked {T}.
Arguments OutOfFuel {T}.

(** Code that reads and writes a state [S]; the state survives an
    exception, as the side effects of Python code do. *)
Definition M (S T : Type) : Type := S → outcome T * S.

Definition ret {S T} (v : T) : M S T := λ s, (Ok v, s).
Definition raise {S T} (e : exn) : M S T := λ s, (Raise e, s).
Definition bind {S T U} (c : M S T) (k : T → M S U) : M S U :=
  λ s, match c s with
       | (Ok v, s') => k v s'
       | (Raise e, s') => (Raise e, s')
       | (Blocked, s') => (Blocked, s')
       | (OutOfFuel, s') => (OutOfFuel, s')
       end.
Definition gets {S T} (f : S → T) : M S T := λ s, (Ok (f s), s).
Definition modify {S} (f : S → S) : M S unit := λ s, (Ok tt, f s).

(** [for x in xs: body(x)] *)
Fixpoint for_each {S T} (body : T → M S unit) (xs : list T) : M S unit :=
  match xs with
  | [] => ret tt
  | x :: xs' => bind (body x) (λ _, for_each body xs')
  end.

(** [s.endswith(suffix)]: some tail of [s] is [suffix]. *)
Fixpoint endswith (s suffix : string) : bool :=
  if String.eqb s suffix then true
  else match s with
       | EmptyString => false
       | String _ s' => endswith s' suffix
       end.

(** [s.endswith((suffix1, suffix2, ...))] *)
Definition endswith_any (s : string) (suffixes : list string) : bool :=
  existsb (endswith s) suffixes.

End Py.

Import Py.

#[export] Instance M_ret {S} : MRet (M S) := @Py.ret S.
#[export] Instance M_bind {S} : MBind (M S) := λ T U k c, Py.bind c k.

(** ** The objects of the process *)

(** The values of a configuration dictionary: [None], integers, strings and,
    under the key ['parameters'], a dictionary of keyword arguments. *)
Inductive cval : Type :=
| CAtom (a : atom)
| CDict (d : gmap string atom).

(** The two [TypeError]s of the interpreter in the call of [globals()[key]]
    with unpacked keyword arguments: a key that is a dictionary cannot be
    hashed, and keyword arguments that are [None], an integer or a string
    are not a mapping; the second names the callee, here by the global it is
    bound to. *)
Inductive call_error : Type :=
| Unhashable (d : gmap string atom)
| NotAMapping (callee : string) (kwargs : atom).

(** An executor of parsl, as far as this package reads it: its class and its
    attribute [max_threads], which not every executor class has
    ([None] here) and which holds [None] or an integer. *)
Record executor : Type := Executor {
  executor_class : string;
  max_threads : option (option Z)
}.

(** [parsl.config.Config(executors=[...])] *)
Record Config : Type := MkConfig { executors : list executor }.

(** An instance of the class [Parsl]: the attributes that the constructors
    set.  [Parsl.__init__] sets [parslConfig] and [npartitions]; the base
    classes, as the specification describes them, keep the configuration and
    the number of partitions.  There is no attribute [sparkContext]: that is
    an attribute of the instances of [Spark], from which the tests read
    it. *)
Record parsl_backend : Type := ParslBackend {
  config : gmap string cval;
  npartitions : option Z;
  parslConfig : Config
}.

(** The backends that [use] can select.  The classes [Local] and [Spark] are
    defined in other modules of the package; their instances are kept as the
    configuration they were built from. *)
Inductive backend : Type :=
| Local (conf : gmap string cval)
| Spark (conf : gmap string cval)
| Parsl (self : parsl_backend).

(** [isinstance(b, Local)] *)
Definition isinstance_Local (b : backend) : bool :=
  match b with Local _ => true | _ => false end.

(** Calls that leave the package: the parsl runtime, the Spark context and
    the declarations to ROOT through [Utils]. *)
Inductive event : Type :=
| ParslClear
| ParslLoad (c : Config)
| AddFile (filepath : string)
| DeclareHeaders (paths : gset string)
| DeclareSharedLibraries (paths : gset string).

(** The state of the Python process: the configuration that the parsl
    runtime has loaded, the globals of the module [PyRDF] and the calls made
    so far. *)
Record process : Type := Process {
  parsl_loaded : option Config;
  current_backend : backend;
  includes_headers : gset string;
  includes_shared_libraries : gset string;
  includes_files : gset string;
  calls : list event
}.

Definition set_parsl_loaded (c : option Config) (w : process) : process :=
  Process c (current_backend w) (includes_headers w)
    (includes_shared_libraries w) (includes_files w) (calls w).
Definition set_current_backend (b : backend) (w : process) : process :=
  Process (parsl_loaded w) b (includes_headers w)
    (includes_shared_libraries w) (includes_files w) (calls w).
Definition set_includes_headers (s : gset string) (w : process) : process :=
  Process (parsl_loaded w) (current_backend w) s
    (includes_shared_libraries w) (includes_files w) (calls w).
Definition set_includes_shared_libraries (s : gset string) (w : process)
  : process :=
  Process (parsl_loaded w) (current_backend w) (includes_headers w)
    s (includes_files w) (calls w).
Definition add_calls (es : list event) (w : process) : process :=
  Process (parsl_loaded w) (current_backend w) (includes_headers w)
    (includes_shared_libraries w) (includes_files w) (calls w ++ es).
Definition call (e : event) : M process unit := Py.modify (add_calls [e]).

(** The state in which the module [PyRDF] has just been imported:
    [current_backend = Local()] and three empty sets. *)
Definition imported : process :=
  Process None (Local ∅) ∅ ∅ ∅ [].

(** ** The Parsl backend *)

Module Parsl.

(** *** Construction and file distribution *)

Section Backend.

(** [globals()] of the module [Parsl]: the callable bound to a name, if the
    name is bound, applied to keyword arguments.  The executor classes
    belong to parsl and are a parameter. *)
Variable globals : string → option (gmap string atom → exn + executor).

(** [Config(executors=...)] belongs to parsl, which can refuse the objects
    it is given: the exception that it raises for them, if any. *)
Variable config_error : list executor → option exn.

(** [parsl.load] starts the executors of the configuration, which belongs to
    parsl and can fail: the exception that starting them raises, if any. *)
Variable load_error : Config → option exn.

(** The text of the [TypeError]s of a call, whose wording depends on the
    version of the interpreter. *)
Variable type_error_text : call_error → string.

(** [parsl.clear()] forgets the loaded configuration. *)
Definition parsl_clear : M process unit :=
  call ParslClear;; Py.modify (set_parsl_loaded None).

(** [parsl.load(config)] refuses to load over a loaded configuration; when
    the executors do not start, it raises and no configuration is loaded. *)
Definition parsl_load (c : Config) : M process unit :=
  loaded ← Py.gets parsl_loaded;
  match loaded with
  | Some _ => Py.raise (RuntimeError "Config has already been loaded")
  | None =>
      match load_error c with
      | Some e => Py.raise e
      | None => call (ParslLoad c);; Py.modify (set_parsl_loaded (Some c))
      end
  end.

(** Modelled from the spec: [Dist.__init__], of the base class in
    [PyRDF/backend/Dist.py], whose source is missing.  The
    configuration key [npartitions] holds an integer that overrides the
    detection of the number of partitions; without it the attribute is
    [None]. *)
Definition Dist_init (conf : gmap string cval) : option Z :=
  match conf !! "npartitions" with
  | Some (CAtom (AInt n)) => Some n
  | _ => None
  end.

(** [x or y] on [None] and integers: [x] when it is true, otherwise [y],
    which is only evaluated then. *)
Definition truthy (x : option Z) : bool :=
  match x with
  | Some n => negb (n =? 0)%Z
  | None => false
  end.

(** [self.parslConfig.executors[0].max_threads] *)
Definition executor0_max_threads (self : parsl_backend)
  : M process (option Z) :=
  match executors (parslConfig self) with
  | [] => Py.raise (IndexError "list index out of range")
  | e :: _ =>
      match max_threads e with
      | None => Py.raise (AttributeError (executor_class e) "max_threads")
      | Some v => mret v
      end
  end.

(** [int(npart)] *)
Definition int (npart : option Z) : M process Z :=
  match npart with
  | Some n => mret n
  | None => Py.raise (TypeError "int() argument must be a string, a bytes-like object or a real number, not 'NoneType'")
  end.

Definition _get_partitions (self : parsl_backend) : M process Z :=
  npart ← (if truthy (npartitions self) then mret (npartitions self)
           else
             mt ← executor0_max_threads self;
             if truthy mt then mret mt else mret (Some 4%Z));
  int npart.

(** [globals()[key]]: a string is looked up, and so is any other value that
    can be hashed, which is bound to nothing; a dictionary cannot be
    hashed. *)
Definition globals_getitem (key : cval)
  : M process (string * (gmap string atom → exn + executor)) :=
  match key with
  | CAtom (AStr s) =>
      match globals s with
      | Some callee => mret (s, callee)
      | None => Py.raise (KeyError (AStr s))
      end
  | CAtom a => Py.raise (KeyError a)
  | CDict d => Py.raise (TypeError (type_error_text (Unhashable d)))
  end.

(** The call of [globals()[config['executor']]] with the keyword arguments
    [config['parameters']]: the callee is evaluated before the
    arguments. *)
Definition make_executor (conf : gmap string cval) : M process executor :=
  match conf !! "executor" with
  | None => Py.raise (KeyError "executor")
  | Some key =>
      '(name, callee) ← globals_getitem key;
      match conf !! "parameters" with
      | None => Py.raise (KeyError "parameters")
      | Some (CAtom v) =>
          Py.raise (TypeError (type_error_text (NotAMapping name v)))
      | Some (CDict kwargs) =>
          match callee kwargs with
          | inl e => Py.raise e
          | inr ex => mret ex
          end
      end
  end.

(** [Config(executors=executors)] *)
Definition make_config (executors : list executor) : M process Config :=
  match config_error executors with
  | Some e => Py.raise e
  | None => mret (MkConfig executors)
  end.

(** [Parsl.__init__] *)
Definition __init__ (conf : gmap string cval) : M process parsl_backend :=
  let npart0 := Dist_init conf in
  _executor ← make_executor conf;
  _config ← make_config [_executor];
  parsl_clear;;
  parsl_load _config;;
  let self := ParslBackend conf npart0 _config in
  n ← _get_partitions self;
  mret (ParslBackend conf (Some n) _config).

(** [self.sparkContext] on an instance of [Parsl], which has no such
    attribute. *)
Definition getattr_sparkContext (self : parsl_backend) : M process unit :=
  Py.raise (AttributeError "Parsl" "sparkContext").

(** [Parsl.distribute_files]:
    [for filepath in includes_list: self.sparkContext.addFile(filepath)];
    the set is iterated in the order of its elements. *)
Definition distribute_files (self : parsl_backend)
    (includes_list : gset string) : M process unit :=
  Py.for_each (λ filepath,
                 getattr_sparkContext self;;
                 call (AddFile filepath))
              (elements includes_list).

End Backend.

(** *** Map and merge over futures *)

Section MapReduce.

Context {Range A : Type}.
Variable mapper : Range → A.
Variable reducer : A → A → A.

(** A future is the index of its app in the order of submission. *)
Abbreviation future := nat.

(** An app submitted to the data-flow kernel.  The arguments of
    [app_reduce] are futures: the kernel runs the app once both are done. *)
Inductive app : Type :=
| AppMap (x : Range)
| AppReduce (l1 l2 : future).

(** The data-flow kernel as the driver sees it: the apps submitted so far
    and the futures whose [result()] the driver has waited for. *)
Record dfk : Type := Dfk { tasks : list app; waits : list future }.

Definition submit (t : app) : M dfk future :=
  λ k, (Ok (length (tasks k)), Dfk (tasks k ++ [t]) (waits k)).

Definition app_map (x : Range) : M dfk future := submit (AppMap x).
Definition app_reduce (l1 l2 : future) : M dfk future := submit (AppReduce l1 l2).

(** *** Execution of the apps by the workers *)

(** The table of completed apps: [done !! f = Some (Some v)] when the app
    of future [f] has returned [v]. *)
Definition run_app (done : list (option A)) (t : app) : option A :=
  match t with
  | AppMap x => Some (mapper x)
  | AppReduce l1 l2 =>
      match mjoin (done !! l1), mjoin (done !! l2) with
      | Some v1, Some v2 => Some (reducer v1 v2)
      | _, _ => None
      end
  end.

(** One app whose arguments are done completes; which one is up to the
    executor. *)
Inductive completes (ts : list app) : relation (list (option A)) :=
| completes_app done f t v :
    ts !! f = Some t →
    done !! f = Some None →
    run_app done t = Some v →
    completes ts done (<[f := Some v]> done).

(** The tables that some order of completion reaches. *)
Definition reachable (ts : list app) (done : list (option A)) : Prop :=
  rtc (completes ts) (replicate (length ts) None) done.

(** The values of the apps, computed in the order of submission. *)
Definition values (ts : list app) : list (option A) :=
  fold_left (λ done t, done ++ [run_app done t]) ts [].

Definition value (ts : list app) (f : future) : option A :=
  mjoin (values ts !! f).

(** Every argument of an app is a future submitted before it. *)
Definition wf_tasks (ts : list app) : Prop :=
  ∀ f l1 l2, ts !! f = Some (AppReduce l1 l2) → l1 < f ∧ l2 < f.

(** [f.result()]: wait for the app of [f] and return its value. *)
Definition result (f : future) : M dfk A :=
  λ k, (match value (tasks k) f with
        | Some v => Ok v
        | None => Blocked
        end,
        Dfk (tasks k) (waits k ++ [f])).

(** *** [ProcessAndMerge] *)

(** [results.pop(0)] *)
Definition pop0 (results : list future) : M dfk (future * list future) :=
  match results with
  | [] => Py.raise (IndexError "pop from empty list")
  | x :: results' => mret (x, results')
  end.

(** [results.pop()] *)
Definition pop (results : list future) : M dfk (future * list future) :=
  match last results with
  | None => Py.raise (IndexError "pop from empty list")
  | Some x => mret (x, removelast results)
  end.

(** [for i in ranges: x = app_map(mapper, i); results.append(x)] *)
Fixpoint for_ranges (ranges : list Range) (results : list future)
  : M dfk (list future) :=
  match ranges with
  | [] => mret results
  | i :: ranges' =>
      x ← app_map i;
      for_ranges ranges' (results ++ [x])
  end.

(** The body of the [while] loop:
    [results.append(app_reduce(reducer, results.pop(0), results.pop(0)))];
    Python evaluates the two [pop(0)] from left to right. *)
Definition while_body (results : list future) : M dfk (list future) :=
  '(l1, results1) ← pop0 results;
  '(l2, results2) ← pop0 results1;
  x ← app_reduce l1 l2;
  mret (results2 ++ [x]).

(** [while len(results) > 1: ...] *)
Fixpoint while_results (fuel : nat) (results : list future)
  : M dfk (list future) :=
  if decide (1 < length results) then
    match fuel with
    | 0 => λ k, (OutOfFuel, k)
    | S fuel' =>
        results' ← while_body results;
        while_results fuel' results'
    end
  else mret results.

(** [ranges] is the value of [self.build_ranges()]; the [print] of the
    loop writes to the standard output only and is left out. *)
Definition ProcessAndMerge (ranges : list Range) : M dfk A :=
  results ← for_ranges ranges [];
  results ← while_results (length results) results;
  '(f, _) ← pop results;
  result f.

End MapReduce.

End Parsl.

(** ** The local and the Spark backend *)

Module Local.

(** Modelled from the spec: the constructor [Local(conf)], of
    [PyRDF/backend/Local.py], whose source is missing, builds the
    instance. *)
Definition __init__ (conf : gmap string cval) : M process backend :=
  mret (Local conf).

(** Modelled from the spec: the local backend performs no file
    distribution. *)
Definition distribute_files (includes_list : gset string) : M process unit :=
  mret tt.

End Local.

Module Spark.

(** Modelled from the spec: the constructor [Spark(conf)], of
    [PyRDF/backend/Spark.py], whose source is missing, builds the
    instance. *)
Definition __init__ (conf : gmap string cval) : M process backend :=
  mret (Spark conf).

(** Modelled from the spec: [Spark.distribute_files], of
    [PyRDF/backend/Spark.py], whose source is missing, pushes every
    file to the workers, through [SparkContext.addFile] of its Spark
    context. *)
Definition distribute_files (includes_list : gset string) : M process unit :=
  Py.for_each (λ filepath, call (AddFile filepath)) (elements includes_list).

End Spark.

(** ** The file system *)

(** What a path names: a file, or a directory with its entries in the order
  in which the system lists them. *)
Inductive fsnode : Type :=
| FFile
| FDir (entries : list (string * fsnode)).

Module os.

(** [os.path.join(a, b)] *)
Definition join (a b : string) : string :=
  if String.prefix "/" b then b
  else if String.eqb a EmptyString || endswith a "/" then a +:+ b
  else a +:+ "/" +:+ b.

Definition dirnames (entries : list (string * fsnode)) : list string :=
  omap (λ e, match e.2 with FDir _ => Some e.1 | FFile => None end) entries.

Definition filenames (entries : list (string * fsnode)) : list string :=
  omap (λ e, match e.2 with FFile => Some e.1 | FDir _ => None end) entries.

(** [os.walk] from a directory [node] named [top], top down: one triple
    [(dirpath, dirnames, filenames)] for the directory, then the triples of
    its subdirectories, each walked from [join(top, name)]; an entry that is
    a file has no triples. *)
Fixpoint walk_node (top : string) (node : fsnode)
  : list (string * list string * list string) :=
  match node with
  | FFile => []
  | FDir entries =>
      (top, dirnames entries, filenames entries)
      :: (e ← entries; walk_node (join top e.1) e.2)
  end.

Section FileSystem.

(** The node that a path string resolves to, if it exists. *)
Variable fs : string → option fsnode.

Definition isdir (path : string) : bool :=
  match fs path with Some (FDir _) => true | _ => false end.

Definition isfile (path : string) : bool :=
  match fs path with Some FFile => true | _ => false end.

Definition walk (top : string) : list (string * list string * list string) :=
  match fs top with
  | Some node => walk_node top node
  | None => []
  end.

End FileSystem.

End os.

(** ** The package [PyRDF] *)

Module PyRDF.

Section Package.

Variable fs : string → option fsnode.
Variable globals : string → option (gmap string atom → exn + executor).
Variable config_error : list executor → option exn.
Variable load_error : Config → option exn.
Variable type_error_text : call_error → string.

Definition future_backends : list string := ["dask"].

Definition quote : string := String (Ascii.ascii_of_nat 34) EmptyString.

(** The attempt of the branch for ["local"] to stop a Spark context changes
    nothing of the process modelled here, and its errors are swallowed. *)
Definition use (backend_name : string) (conf : gmap string cval)
  : M process unit :=
  if bool_decide (backend_name ∈ future_backends) then
    Py.raise (NotImplementedError
                "This backend environment will be considered in the future !")
  else if String.eqb backend_name "local" then
    b ← Local.__init__ conf;
    Py.modify (set_current_backend b)
  else if String.eqb backend_name "spark" then
    b ← Spark.__init__ conf;
    Py.modify (set_current_backend b)
  else if String.eqb backend_name "parsl" then
    b ← Parsl.__init__ globals config_error load_error type_error_text conf;
    Py.modify (set_current_backend (Parsl b))
  else
    Py.raise (Exception ("Incorrect backend environment " +:+ quote
                           +:+ backend_name +:+ quote)).

(** The value is a set, or Python's [None] when the path is neither a
    directory nor a file: the function then ends without [return]. *)
Definition _get_paths_set_from_string (path_string : string)
  : option (gset string) :=
  if os.isdir fs path_string then
    Some (list_to_set
            ('(rootpath, dirs, filenames) ← os.walk fs path_string;
             filename ← filenames;
             [os.join rootpath filename]))
  else if os.isfile fs path_string then
    Some {[ path_string ]}
  else None.

Definition not_iterable : exn :=
  TypeError "'NoneType' object is not iterable".

(** [for x in v] and [s.update(v)] when [v] may be [None] *)
Definition iter (v : option (gset string)) : M process (gset string) :=
  match v with
  | Some s => mret s
  | None => Py.raise not_iterable
  end.

Definition shared_library_formats : list string := [".so"; ".dll"; ".dylib"].

Definition _check_pcm_in_library_path (shared_library_path : string)
  : M process (gset string * gset string) :=
  let all_paths := _get_paths_set_from_string shared_library_path in
  all ← iter all_paths;
  let pcm_paths := filter (λ filepath, endswith filepath ".pcm") all in
  all ← iter all_paths;
  let libraries_path :=
    filter (λ filepath, endswith_any filepath shared_library_formats) all in
  mret (pcm_paths, libraries_path).

(** The argument of the entry points: a string or an iterable of
    strings. *)
Inductive paths : Type :=
| PathStr (path_string : string)
| PathIter (path_strings : list string).

(** [to_include = set()] followed by the [update] of the string, or of
    every string of the iterable. *)
Fixpoint update_each (to_include : gset string) (path_strings : list string)
  : M process (gset string) :=
  match path_strings with
  | [] => mret to_include
  | path_string :: rest =>
      s ← iter (_get_paths_set_from_string path_string);
      update_each (to_include ∪ s) rest
  end.

Definition collect (arg : paths) : M process (gset string) :=
  match arg with
  | PathStr path_string =>
      s ← iter (_get_paths_set_from_string path_string);
      mret (∅ ∪ s)
  | PathIter path_strings => update_each ∅ path_strings
  end.

(** [current_backend.distribute_files(includes_list)]: the method of the
    class of the instance. *)
Definition distribute_files (b : backend) (includes_list : gset string)
  : M process unit :=
  match b with
  | Parsl self => Parsl.distribute_files self includes_list
  | Spark _ => Spark.distribute_files includes_list
  | Local _ => Local.distribute_files includes_list
  end.

(** Modelled from the spec: [Utils.declare_headers] and
    [Utils.declare_shared_libraries], of [PyRDF/backend/Utils.py], whose
    source is missing, declare the paths to the local ROOT session. *)
Definition declare_headers (s : gset string) : M process unit :=
  call (DeclareHeaders s).
Definition declare_shared_libraries (s : gset string) : M process unit :=
  call (DeclareSharedLibraries s).

Definition include_headers (headers_paths : paths) : M process unit :=
  headers_to_include ← collect headers_paths;
  b ← Py.gets current_backend;
  (if negb (isinstance_Local b)
   then distribute_files b headers_to_include else mret tt);;
  declare_headers headers_to_include;;
  Py.modify (λ w, set_includes_headers
                    (includes_headers w ∪ headers_to_include) w).

Fixpoint check_each (libraries_to_include pcm_to_include : gset string)
    (path_strings : list string) : M process (gset string * gset string) :=
  match path_strings with
  | [] => mret (pcm_to_include, libraries_to_include)
  | path_string :: rest =>
      '(pcm, libraries) ← _check_pcm_in_library_path path_string;
      check_each (libraries_to_include ∪ libraries) (pcm_to_include ∪ pcm)
        rest
  end.

(** The last statement updates [includes_shared_libraries] with itself. *)
Definition include_shared_libraries (shared_libraries_paths : paths)
  : M process unit :=
  '(pcm_to_include, libraries_to_include) ←
    match shared_libraries_paths with
    | PathStr path_string => _check_pcm_in_library_path path_string
    | PathIter path_strings => check_each ∅ ∅ path_strings
    end;
  b ← Py.gets current_backend;
  (if negb (isinstance_Local b)
   then distribute_files b libraries_to_include;;
        distribute_files b pcm_to_include
   else mret tt);;
  declare_shared_libraries libraries_to_include;;
  Py.modify (λ w, set_includes_shared_libraries
                    (includes_shared_libraries w
                       ∪ includes_shared_libraries w) w).

(** [includes_files] is declared [global] and not updated. *)
Definition send_generic_files (files_paths : paths) : M process unit :=
  files_to_include ← collect files_paths;
  b ← Py.gets current_backend;
  if negb (isinstance_Local b)
  then distribute_files b files_to_include else mret tt.

End Package.

End PyRDF.

(** ** A configuration and a file system for examples *)

Module Examples.

(** Two executor classes of parsl: [ThreadPoolExecutor] keeps the keyword
    argument [max_threads], which is 2 by default; [HighThroughputExecutor]
    has no such attribute. *)
Definition globals (name : string)
  : option (gmap string atom → exn + executor) :=
  if String.eqb name "ThreadPoolExecutor" then
    Some (λ kwargs,
            inr (Executor "ThreadPoolExecutor"
                   (Some match kwargs !! "max_threads" with
                         | Some (AInt n) => Some n
                         | Some _ => None
                         | None => Some 2%Z
                         end)))
  else if String.eqb name "HighThroughputExecutor" then
    Some (λ kwargs, inr (Executor "HighThroughputExecutor" None))
  else None.

(** A configuration is built from every list of executors. *)
Definition config_error (executors : list executor) : option exn := None.

(** The executors of a configuration start unless one of them has a pool of
    no thread. *)
Definition load_error (c : Config) : option exn :=
  if existsb (λ ex, match max_threads ex with
                    | Some (Some n) => (n <=? 0)%Z
                    | _ => false
                    end) (executors c)
  then Some (ValueError "max_workers must be greater than 0")
  else None.

(** A wording of the interpreter for the [TypeError]s of a call. *)
Definition type_error_text (e : call_error) : string :=
  match e with
  | Unhashable _ => "unhashable type: 'dict'"
  | NotAMapping callee kwargs =>
      callee +:+ "() argument after ** must be a mapping, not "
        +:+ match kwargs with
            | ANone => "NoneType"
            | AInt _ => "int"
            | AStr _ => "str"
            end
  end.

(** The configuration of the docstring of [Parsl.__init__]. *)
Definition conf : gmap string cval :=
  {[ "executor" := CAtom (AStr "ThreadPoolExecutor");
     "parameters" := CDict {[ "max_threads" := AInt 16;
                              "label" := AStr "local_threads" ]} ]}.

(** A process in which an earlier backend has loaded its configuration. *)
Definition earlier : process :=
  Process (Some (MkConfig [Executor "HighThroughputExecutor" None]))
    (Local ∅) ∅ ∅ ∅ [].

(** A file system with a directory of headers and a directory of
    libraries. *)
Definition fs (path : string) : option fsnode :=
  if String.eqb path "inc" then
    Some (FDir [("a.h", FFile); ("detail", FDir [("b.h", FFile)])])
  else if String.eqb path "inc/a.h" then Some FFile
  else if String.eqb path "lib" then
    Some (FDir [("libfoo.so", FFile); ("libfoo_rdict.pcm", FFile);
                ("README", FFile)])
  else if String.eqb path "lib/libfoo.so" then Some FFile
  else None.

(** A process whose current backend is a Parsl backend. *)
Definition on_parsl : process :=
  let cfg := MkConfig [Executor "ThreadPoolExecutor" (Some (Some 16%Z))] in
  Process (Some cfg) (Parsl (ParslBackend conf (Some 16%Z) cfg)) ∅ ∅ ∅ [].

(** A process whose current backend is the Spark backend. *)
Definition on_spark : process := Process None (Spark ∅) ∅ ∅ ∅ [].

End Examples.

(** ** The merge as the specification words it *)

Module MergeSpec.

Section Spec.

Context {Range A : Type}.
Variable reducer : A → A → A.

(** Folding the partial results serially, left to right; there is no value
    for an empty list. *)
Definition serial_fold (vs : list A) : option A :=
  match vs with
  | [] => None
  | v :: vs' => Some (fold_left reducer vs' v)
  end.

(** [l'] is [l] read cyclically from some position. *)
Definition rotation (l l' : list A) : Prop :=
  ∃ l1 l2, l = l1 ++ l2 ∧ l' = l2 ++ l1.

(** The worklist protocol: repeatedly remove the two futures at the front,
    submit a reduce app whose left operand is the first one removed, and
    append its future to the back, until exactly one future remains.
    [worklist_fold results ts f ts'] runs it from the worklist [results] and
    the submitted apps [ts] and ends with the future [f] and the apps
    [ts']. *)
Inductive worklist_fold
  : list nat → list (@Parsl.app Range) → nat → list (@Parsl.app Range) → Prop :=
| worklist_one f ts :
    worklist_fold [f] ts f ts
| worklist_two l1 l2 rest ts f ts' :
    worklist_fold (rest ++ [length ts]) (ts ++ [Parsl.AppReduce l1 l2]) f ts' →
    worklist_fold (l1 :: l2 :: rest) ts f ts'.

(** The future [g] holds the serial fold of the segment [seg]. *)
Definition holds (mapper : Range → A) (ts : list (@Parsl.app Range))
    (g : nat) (seg : list A) : Prop :=
  ∃ v, serial_fold seg = Some v ∧ Parsl.value mapper reducer ts g = Some v.

End Spec.

End MergeSpec.

(** ** The dependency tree of a future *)

Module MergeTree.

Section Tree.

Context {Range : Type}.

(** The apps that a future depends on: a map app is a leaf, a reduce app a
    node over the trees of its two operands. *)
Inductive tree : Type :=
| Leaf (x : Range)
| Node (l r : tree).

(** The tree of the future [f] among the apps [ts]: its value when the
    mapper is [Leaf] and the reducer is [Node]. *)
Definition dependency_tree (ts : list (@Parsl.app Range)) (f : nat)
  : option tree :=
  Parsl.value Leaf Node ts f.

(** The ranges of the leaves, from left to right. *)
Fixpoint leaves (t : tree) : list Range :=
  match t with
  | Leaf x => [x]
  | Node l r => leaves l ++ leaves r
  end.

(** The number of reduce apps on the longest chain of the tree. *)
Fixpoint height (t : tree) : nat :=
  match t with
  | Leaf _ => 0
  | Node l r => S (height l `max` height r)
  end.

(** The value of the tree under a mapper and a reducer. *)
Fixpoint eval {A} (mapper : Range → A) (reducer : A → A → A) (t : tree) : A :=
  match t with
  | Leaf x => mapper x
  | Node l r => reducer (eval mapper reducer l) (eval mapper reducer r)
  end.

(** Neighbours combined two by two, in order. *)
Fixpoint pair_up (trees : list tree) : list tree :=
  match trees with
  | l :: r :: trees' => Node l r :: pair_up trees'
  | _ => []
  end.

(** [k] rounds of combining neighbours. *)
Fixpoint rounds (k : nat) (trees : list tree) : list tree :=
  match k with
  | 0 => trees
  | S k' => rounds k' (pair_up trees)
  end.

(** The tree that the worklist builds over [2 ^ k + m] ranges, [m < 2 ^ k]:
    the first [2 * m] ranges are combined two by two behind the others, and
    [k] rounds over the [2 ^ k] trees that remain build the tree. *)
Definition merge_tree (k m : nat) (ranges : list Range) : option tree :=
  head (rounds k ((Leaf <$> drop (2 * m) ranges)
                    ++ pair_up (Leaf <$> take (2 * m) ranges))).

End Tree.

End MergeTree.

(** ** Registration as the specification words it *)

Module RegistrySpec.

(** The path strings of an argument of an entry point. *)
Definition paths_of (arg : PyRDF.paths) : list string :=
  match arg with
  | PyRDF.PathStr path_string => [path_string]
  | PyRDF.PathIter path_strings => path_strings
  end.

(** The path string resolves to neither a file nor a directory. *)
Definition unresolved (fs : string → option fsnode) (path : string) : Prop :=
  os.isdir fs path = false ∧ os.isfile fs path = false.

(** The files of all path strings of an argument, when every one of them
    resolves. *)
Definition all_paths (fs : string → option fsnode) (arg : PyRDF.paths)
  : option (gset string) :=
  sets ← mapM (PyRDF._get_paths_set_from_string fs) (paths_of arg);
  Some (⋃ sets).

(** [file_beneath top node path]: [path] names a file beneath the directory
    [node], at any depth, when [top] names the directory. *)
Inductive file_beneath : string → fsnode → string → Prop :=
| beneath_here top entries name :
    (name, FFile) ∈ entries →
    file_beneath top (FDir entries) (os.join top name)
| beneath_sub top entries name sub path :
    (name, sub) ∈ entries →
    file_beneath (os.join top name) sub path →
    file_beneath top (FDir entries) path.

End RegistrySpec.

(** * Properties *)

(** ** The outcome monad *)

Lemma bind_Ok {S T U} (c : M S T) (k : T → M S U) s v s' :
  c s = (Ok v, s') → (c ≫= k) s = k v s'.
Proof. intros H. unfold mbind, M_bind, Py.bind. by rewrite H. Qed.

Lemma bind_Raise {S T U} (c : M S T) (k : T → M S U) s e s' :
  c s = (Raise e, s') → (c ≫= k) s = (Raise e, s').
Proof. intros H. unfold mbind, M_bind, Py.bind. by rewrite H. Qed.

(** ** Execution of the apps *)

Section Execution.

Context {Range A : Type}.
Variable mapper : Range → A.
Variable reducer : A → A → A.

#[local] Abbreviation app := (@Parsl.app Range).
#[local] Abbreviation values := (Parsl.values mapper reducer).
#[local] Abbreviation value := (Parsl.value mapper reducer).
#[local] Abbreviation run_app := (Parsl.run_app mapper reducer).
#[local] Abbreviation completes := (Parsl.completes mapper reducer).
#[local] Abbreviation reachable := (Parsl.reachable mapper reducer).

Lemma values_snoc (ts : list app) t :
  values (ts ++ [t]) = values ts ++ [run_app (values ts) t].
Proof. unfold Parsl.values. by rewrite fold_left_app. Qed.

Lemma length_values (ts : list app) : length (values ts) = length ts.
Proof.
  induction ts as [|t ts IH] using rev_ind; [done|].
  rewrite values_snoc, !length_app, IH. done.
Qed.

Lemma values_app_prefix (ts ts' : list app) :
  values ts `prefix_of` values (ts ++ ts').
Proof.
  induction ts' as [|t ts' IH] using rev_ind.
  - by rewrite app_nil_r.
  - rewrite app_assoc, values_snoc. by apply prefix_app_r.
Qed.

Lemma values_app_lookup (ts ts' : list app) f :
  f < length ts → values (ts ++ ts') !! f = values ts !! f.
Proof.
  intros Hf. destruct (values_app_prefix ts ts') as [rest ->].
  apply lookup_app_l. by rewrite length_values.
Qed.

Lemma value_app (ts ts' : list app) f :
  f < length ts → value (ts ++ ts') f = value ts f.
Proof. intros Hf. unfold Parsl.value. by rewrite values_app_lookup. Qed.

Lemma value_lt (ts : list app) f v : value ts f = Some v → f < length ts.
Proof.
  unfold Parsl.value. intros H.
  destruct (values ts !! f) as [o|] eqn:E; [|done].
  apply lookup_lt_Some in E. by rewrite length_values in E.
Qed.

Lemma value_snoc (ts : list app) t :
  value (ts ++ [t]) (length ts) = run_app (values ts) t.
Proof.
  unfold Parsl.value. rewrite values_snoc.
  rewrite lookup_app_r by (rewrite length_values; lia).
  rewrite length_values, Nat.sub_diag. done.
Qed.

Lemma wf_tasks_snoc (ts : list app) t :
  Parsl.wf_tasks ts →
  (∀ l1 l2, t = Parsl.AppReduce l1 l2 → l1 < length ts ∧ l2 < length ts) →
  Parsl.wf_tasks (ts ++ [t]).
Proof.
  intros Hwf Ht f l1 l2 Hf.
  destruct (decide (f < length ts)) as [Hlt|Hge].
  - rewrite lookup_app_l in Hf by done. eauto.
  - rewrite lookup_app_r in Hf by lia.
    destruct (f - length ts) as [|n] eqn:E; simpl in Hf; [|by destruct n].
    injection Hf as ->. destruct (Ht l1 l2 eq_refl). lia.
Qed.

Lemma wf_tasks_prefix (ts ts' : list app) :
  Parsl.wf_tasks (ts ++ ts') → Parsl.wf_tasks ts.
Proof.
  intros Hwf f l1 l2 Hf. apply (Hwf f l1 l2).
  rewrite lookup_app_l; [done|]. by eapply lookup_lt_Some.
Qed.

(** With well-formed tasks, the value of an app is the app run on the
    values of all apps. *)
Lemma values_lookup_run (ts : list app) f t :
  Parsl.wf_tasks ts → ts !! f = Some t →
  values ts !! f = Some (run_app (values ts) t).
Proof.
  induction ts as [|t' ts IH] using rev_ind; [done|].
  intros Hwf Hf. pose proof (wf_tasks_prefix _ _ Hwf) as Hwf'.
  destruct (decide (f < length ts)) as [Hlt|Hge].
  - rewrite lookup_app_l in Hf by done.
    rewrite values_app_lookup by done. rewrite (IH Hwf' Hf). f_equal.
    destruct t as [x|l1 l2]; [done|]. simpl.
    destruct (Hwf' f l1 l2 Hf) as [H1 H2].
    rewrite !values_app_lookup by lia. done.
  - assert (f = length ts) as ->.
    { apply lookup_lt_Some in Hf. rewrite length_app in Hf. simpl in Hf. lia. }
    rewrite lookup_app_r in Hf by lia. rewrite Nat.sub_diag in Hf.
    injection Hf as ->.
    pose proof (value_snoc ts t) as Hv. unfold Parsl.value in Hv.
    rewrite values_snoc at 1.
    rewrite lookup_app_r by (rewrite length_values; lia).
    rewrite length_values, Nat.sub_diag. simpl. f_equal.
    destruct t as [x|l1 l2]; [done|]. simpl.
    destruct (Hwf (length ts) l1 l2) as [H1 H2].
    { rewrite lookup_app_r by lia. by rewrite Nat.sub_diag. }
    rewrite <- !(values_app_lookup ts [Parsl.AppReduce l1 l2]) by lia. done.
Qed.

(** What an app returns does not depend on the order of completion: every
    table that the executor reaches agrees with [values]. *)
Lemma reachable_sound (ts : list app) done :
  Parsl.wf_tasks ts → reachable ts done →
  ∀ f v, done !! f = Some (Some v) → value ts f = Some v.
Proof.
  intros Hwf Hr. unfold Parsl.reachable in Hr.
  apply rtc_nsteps in Hr as [n Hr].
  remember (replicate (length ts) None) as d0 eqn:Hd0.
  cut (∀ f v, done !! f = Some (Some v) → values ts !! f = Some (Some v)).
  { intros H f v Hf. unfold Parsl.value. by rewrite (H f v Hf). }
  revert done Hr. induction n as [|n IH]; intros done Hr f v Hf.
  - inversion Hr; subst. apply lookup_replicate in Hf as [? _]. done.
  - apply nsteps_inv_r in Hr as (mid & Hmid & Hstep).
    specialize (IH mid Hmid).
    inversion Hstep as [mid' g t w Hg Hnone Hrun]; subst.
    destruct (decide (f = g)) as [->|Hne].
    + rewrite list_lookup_insert_eq in Hf by (by eapply lookup_lt_Some).
      injection Hf as ->.
      rewrite (values_lookup_run ts g t Hwf Hg). f_equal.
      rewrite <- Hrun. destruct t as [x|l1 l2]; [done|]. simpl in *.
      destruct (mid !! l1) as [[v1|]|] eqn:E1; simpl in Hrun; try done.
      destruct (mid !! l2) as [[v2|]|] eqn:E2; simpl in Hrun; try done.
      rewrite (IH _ _ E1), (IH _ _ E2). done.
    + rewrite list_lookup_insert_ne in Hf by done. eauto.
Qed.

Lemma completes_snoc (ts : list app) t d d' :
  length d = length ts →
  completes ts d d' → completes (ts ++ [t]) (d ++ [None]) (d' ++ [None]).
Proof.
  intros Hlen Hstep. inversion Hstep as [d0 f t0 v Hf Hnone Hrun]; subst.
  rename d into d0.
  assert (f < length d0) as Hlt by (by eapply lookup_lt_Some).
  replace (<[f:=Some v]> d0 ++ [None]) with (<[f:=Some v]> (d0 ++ [None]))
    by (by rewrite insert_app_l).
  econstructor.
  - rewrite lookup_app_l by lia. done.
  - rewrite lookup_app_l by lia. done.
  - rewrite <- Hrun. destruct t0 as [x|l1 l2]; [done|]. simpl in *.
    destruct (d0 !! l1) as [o1|] eqn:E1; simpl in Hrun; [|done].
    destruct (d0 !! l2) as [o2|] eqn:E2;
      [|by destruct o1; simpl in Hrun].
    rewrite (lookup_app_l_Some _ _ _ _ E1), (lookup_app_l_Some _ _ _ _ E2).
    done.
Qed.

Lemma completes_length (ts : list app) d d' :
  completes ts d d' → length d' = length d.
Proof. intros Hstep. inversion Hstep; subst. by rewrite length_insert. Qed.

(** Every app of well-formed tasks has a value. *)
Lemma values_defined (ts : list app) :
  Parsl.wf_tasks ts → Forall is_Some (values ts).
Proof.
  induction ts as [|t ts IH] using rev_ind; intros Hwf; [constructor|].
  pose proof (wf_tasks_prefix _ _ Hwf) as Hwf'. specialize (IH Hwf').
  rewrite values_snoc. apply Forall_app. split; [done|].
  constructor; [|constructor].
  destruct t as [x|l1 l2]; simpl; [by eexists|].
  destruct (Hwf (length ts) l1 l2) as [H1 H2].
  { rewrite lookup_app_r by lia. by rewrite Nat.sub_diag. }
  rewrite <- (length_values ts) in H1, H2.
  apply lookup_lt_is_Some in H1 as [o1 E1], H2 as [o2 E2].
  rewrite E1, E2.
  destruct (proj1 (Forall_lookup _ _) IH _ _ E1) as [v1 ->].
  destruct (proj1 (Forall_lookup _ _) IH _ _ E2) as [v2 ->].
  by eexists.
Qed.

(** The executor can complete every app of well-formed tasks, for instance
    in the order of submission; so [result] returns. *)
Lemma reachable_values (ts : list app) :
  Parsl.wf_tasks ts → reachable ts (values ts).
Proof.
  induction ts as [|t ts IH] using rev_ind; intros Hwf.
  { apply rtc_refl. }
  pose proof (wf_tasks_prefix _ _ Hwf) as Hwf'. specialize (IH Hwf').
  unfold Parsl.reachable in *.
  rewrite length_app, replicate_add. simpl.
  assert (rtc (completes (ts ++ [t]))
            (replicate (length ts) None ++ [None]) (values ts ++ [None]))
    as Hlift.
  { revert IH. generalize (values ts) as d.
    assert (length (replicate (length ts) (@None A)) = length ts) as Hlen
      by apply length_replicate.
    revert Hlen. generalize (replicate (length ts) (@None A)) as d0.
    intros d0 Hlen d Hrtc. induction Hrtc as [d|d1 d2 d3 Hstep Hrtc IHr].
    - apply rtc_refl.
    - eapply rtc_l; [by apply completes_snoc|].
      apply IHr. by rewrite (completes_length _ _ _ Hstep).
  }
  eapply rtc_r; [exact Hlift|].
  pose proof (values_defined _ Hwf) as Hdef.
  rewrite values_snoc in Hdef. apply Forall_app in Hdef as [_ Hdef].
  apply Forall_singleton in Hdef as [v Hv].
  rewrite values_snoc, Hv.
  replace (values ts ++ [Some v])
    with (<[length ts := Some v]> (values ts ++ [None])).
  2:{ rewrite <- (length_values ts) at 1.
      rewrite insert_app_r_alt by lia. by rewrite Nat.sub_diag. }
  apply (Parsl.completes_app _ _ _ _ (length ts) t v).
  - rewrite lookup_app_r by lia. by rewrite Nat.sub_diag.
  - rewrite lookup_app_r by (rewrite length_values; lia).
    by rewrite length_values, Nat.sub_diag.
  - rewrite <- Hv. destruct t as [x|l1 l2]; [done|]. simpl.
    destruct (Hwf (length ts) l1 l2) as [H1 H2].
    { rewrite lookup_app_r by lia. by rewrite Nat.sub_diag. }
    rewrite !lookup_app_l by (rewrite length_values; lia). done.
Qed.

End Execution.

(** ** [ProcessAndMerge] *)

Section Merge.

Context {Range A : Type}.
Variable mapper : Range → A.
Variable reducer : A → A → A.

#[local] Abbreviation app := (@Parsl.app Range).
#[local] Abbreviation dfk := (@Parsl.dfk Range).
#[local] Abbreviation values := (Parsl.values mapper reducer).
#[local] Abbreviation value := (Parsl.value mapper reducer).
#[local] Abbreviation reachable := (Parsl.reachable mapper reducer).
#[local] Abbreviation serial_fold := (MergeSpec.serial_fold reducer).
#[local] Abbreviation worklist_fold := (@MergeSpec.worklist_fold Range).
#[local] Abbreviation holds := (MergeSpec.holds reducer mapper).
#[local] Abbreviation ProcessAndMerge := (Parsl.ProcessAndMerge mapper reducer).

(** The [for] loop submits one map app per range, in the order of the
    ranges, and appends their futures to the worklist. *)
Lemma for_ranges_run (ranges : list Range) results (k : dfk) :
  Parsl.for_ranges ranges results k
  = (Ok (results ++ seq (length (Parsl.tasks k)) (length ranges)),
     Parsl.Dfk (Parsl.tasks k ++ (Parsl.AppMap <$> ranges)) (Parsl.waits k)).
Proof.
  revert results k. induction ranges as [|i ranges IH]; intros results k.
  - simpl. rewrite !app_nil_r. by destruct k.
  - simpl. erewrite bind_Ok by reflexivity. rewrite IH. simpl.
    rewrite length_app, <- !app_assoc. simpl.
    by rewrite Nat.add_1_r.
Qed.

Lemma while_body_run l1 l2 rest (k : dfk) :
  Parsl.while_body (l1 :: l2 :: rest) k
  = (Ok (rest ++ [length (Parsl.tasks k)]),
     Parsl.Dfk (Parsl.tasks k ++ [Parsl.AppReduce l1 l2]) (Parsl.waits k)).
Proof. reflexivity. Qed.

(** The [while] loop follows the worklist protocol and ends with one
    future, given one unit of fuel per iteration. *)
Lemma while_results_run fuel results (k : dfk) :
  results ≠ [] → (length results ≤ S fuel)%nat →
  ∃ f ts', Parsl.while_results fuel results k
           = (Ok [f], Parsl.Dfk ts' (Parsl.waits k))
           ∧ worklist_fold results (Parsl.tasks k) f ts'
           ∧ length ts' = length (Parsl.tasks k) + (length results - 1).
Proof.
  revert results k. induction fuel as [|fuel IH]; intros results k Hne Hlen.
  - destruct results as [|f [|g rest]]; [done| |simpl in Hlen; lia].
    exists f, (Parsl.tasks k). simpl. destruct k. simpl.
    split; [done|]. split; [constructor|lia].
  - destruct results as [|l1 [|l2 rest]]; [done| |].
    + exists l1, (Parsl.tasks k). simpl. destruct k. simpl.
      split; [done|]. split; [constructor|lia].
    + cbn [Parsl.while_results]. rewrite decide_True by (simpl; lia).
      erewrite bind_Ok by apply while_body_run.
      destruct (IH (rest ++ [length (Parsl.tasks k)])
                  (Parsl.Dfk (Parsl.tasks k ++ [Parsl.AppReduce l1 l2])
                     (Parsl.waits k))) as (f & ts' & Hrun & Hfold & Hts').
      { by destruct rest. }
      { rewrite length_app. simpl in *. lia. }
      exists f, ts'. split; [done|]. split; [by constructor|].
      rewrite Hts'. simpl. rewrite !length_app. simpl. lia.
Qed.

(** *** Serial folds and rotations *)

Lemma fold_left_assoc `{!Assoc (=) reducer} (l : list A) a b :
  fold_left reducer l (reducer a b) = reducer a (fold_left reducer l b).
Proof.
  revert b. induction l as [|c l IH]; intros b; simpl; [done|].
  by rewrite <- (assoc reducer), IH.
Qed.

Lemma serial_fold_app `{!Assoc (=) reducer} (s1 s2 : list A) v1 v2 :
  serial_fold s1 = Some v1 → serial_fold s2 = Some v2 →
  serial_fold (s1 ++ s2) = Some (reducer v1 v2).
Proof.
  destruct s1 as [|x t1], s2 as [|y t2]; simpl; try done.
  intros [= <-] [= <-]. rewrite fold_left_app. simpl.
  by rewrite fold_left_assoc.
Qed.

Lemma serial_fold_is_Some (vs : list A) : vs ≠ [] → is_Some (serial_fold vs).
Proof. destruct vs; [done|]. by eexists. Qed.

Lemma rotation_refl (l : list A) : MergeSpec.rotation l l.
Proof. exists [], l. by rewrite app_nil_r. Qed.

Lemma rotation_app (l1 l2 : list A) : MergeSpec.rotation (l1 ++ l2) (l2 ++ l1).
Proof. by exists l1, l2. Qed.

Lemma rotation_trans (l m n : list A) :
  MergeSpec.rotation l m → MergeSpec.rotation m n → MergeSpec.rotation l n.
Proof.
  intros (l1 & l2 & -> & ->) (m1 & m2 & Hm & ->).
  apply app_eq_app in Hm as [x [[E1 E2]|[E1 E2]]]; subst.
  - exists (l1 ++ m1), x. by rewrite <- !app_assoc.
  - exists x, (m2 ++ l2). by rewrite <- !app_assoc.
Qed.

Lemma rotation_length (l l' : list A) :
  MergeSpec.rotation l l' → length l' = length l.
Proof. intros (l1 & l2 & -> & ->). rewrite !length_app. lia. Qed.

(** A commutative and associative reducer folds a rotation to the same
    value. *)
Lemma serial_fold_rotation `{!Assoc (=) reducer} `{!Comm (=) reducer}
    (l l' : list A) :
  MergeSpec.rotation l l' → serial_fold l' = serial_fold l.
Proof.
  intros (l1 & l2 & -> & ->).
  destruct l1 as [|x t1]; [by rewrite app_nil_r|].
  destruct l2 as [|y t2]; [by rewrite app_nil_r|].
  destruct (serial_fold_is_Some (x :: t1)) as [v1 H1]; [done|].
  destruct (serial_fold_is_Some (y :: t2)) as [v2 H2]; [done|].
  rewrite (serial_fold_app _ _ _ _ H2 H1), (serial_fold_app _ _ _ _ H1 H2).
  f_equal. apply (comm reducer).
Qed.

(** *** The value of the worklist protocol *)

Lemma holds_snoc (ts : list app) t g seg :
  holds ts g seg → holds (ts ++ [t]) g seg.
Proof.
  intros (v & Hv & Hg). exists v. split; [done|].
  rewrite value_app; [done|]. by eapply value_lt.
Qed.

Lemma worklist_fold_value `{!Assoc (=) reducer} results (ts : list app) f ts'
    (segs : list (list A)) :
  worklist_fold results ts f ts' →
  Forall2 (holds ts) results segs →
  ∃ v l, MergeSpec.rotation (concat segs) l
         ∧ serial_fold l = Some v ∧ value ts' f = Some v.
Proof.
  intros Hfold. revert segs.
  induction Hfold as [f ts|l1 l2 rest ts f ts' Hfold IH]; intros segs Hsegs.
  - apply Forall2_cons_inv_l in Hsegs as (seg & segs' & (v & Hv & Hf) & Hnil & ->).
    apply Forall2_nil_inv_l in Hnil as ->.
    exists v, seg. simpl. rewrite app_nil_r. eauto using rotation_refl.
  - apply Forall2_cons_inv_l in Hsegs as (s1 & segs1 & (v1 & Hv1 & Hf1) & Hsegs & ->).
    apply Forall2_cons_inv_l in Hsegs as (s2 & srest & (v2 & Hv2 & Hf2) & Hsegs & ->).
    destruct (IH (srest ++ [s1 ++ s2])) as (v & l & Hrot & Hv & Hf).
    { apply Forall2_app.
      - eapply Forall2_impl; [exact Hsegs|]. intros g seg. apply holds_snoc.
      - constructor; [|constructor].
        exists (reducer v1 v2). split; [by apply serial_fold_app|].
        rewrite value_snoc. simpl.
        unfold Parsl.value in Hf1, Hf2. by rewrite Hf1, Hf2. }
    exists v, l. split; [|done].
    eapply rotation_trans; [|exact Hrot].
    rewrite concat_app. simpl. rewrite app_nil_r.
    rewrite (app_assoc s1 s2). apply rotation_app.
Qed.

Lemma worklist_fold_wf results (ts : list app) f ts' :
  worklist_fold results ts f ts' →
  Parsl.wf_tasks ts → Forall (λ g, g < length ts) results →
  Parsl.wf_tasks ts' ∧ ts `prefix_of` ts'.
Proof.
  induction 1 as [f ts|l1 l2 rest ts f ts' Hfold IH]; intros Hwf Hlt.
  - done.
  - apply Forall_cons in Hlt as [H1 Hlt]. apply Forall_cons in Hlt as [H2 Hlt].
    destruct IH as [Hwf' Hpre].
    + apply wf_tasks_snoc; [done|]. by intros ? ? [= <- <-].
    + apply Forall_app. split.
      * eapply Forall_impl; [exact Hlt|]. intros g Hg. rewrite length_app.
        simpl in *. lia.
      * constructor; [|constructor]. rewrite length_app. simpl. lia.
    + split; [done|]. etrans; [|exact Hpre]. by exists [Parsl.AppReduce l1 l2].
Qed.

(** *** The run of [ProcessAndMerge] *)

Lemma ProcessAndMerge_run (ranges : list Range) (k : dfk) :
  ranges ≠ [] →
  ∃ f ts',
    worklist_fold (seq (length (Parsl.tasks k)) (length ranges))
      (Parsl.tasks k ++ (Parsl.AppMap <$> ranges)) f ts'
    ∧ Parsl.while_results (length ranges)
        (seq (length (Parsl.tasks k)) (length ranges))
        (Parsl.Dfk (Parsl.tasks k ++ (Parsl.AppMap <$> ranges)) (Parsl.waits k))
      = (Ok [f], Parsl.Dfk ts' (Parsl.waits k))
    ∧ length ts' = length (Parsl.tasks k) + length ranges + (length ranges - 1)
    ∧ ProcessAndMerge ranges k
      = (match value ts' f with Some v => Ok v | None => Blocked end,
         Parsl.Dfk ts' (Parsl.waits k ++ [f])).
Proof.
  intros Hne.
  destruct (while_results_run (length ranges)
              (seq (length (Parsl.tasks k)) (length ranges))
              (Parsl.Dfk (Parsl.tasks k ++ (Parsl.AppMap <$> ranges))
                 (Parsl.waits k))) as (f & ts' & Hrun & Hfold & Hlen).
  { destruct ranges; [done|]. simpl. done. }
  { rewrite length_seq. lia. }
  simpl in Hrun, Hfold, Hlen.
  exists f, ts'. split; [done|]. split; [done|]. split.
  { rewrite Hlen, length_app, length_fmap, length_seq. lia. }
  unfold Parsl.ProcessAndMerge.
  erewrite bind_Ok by apply for_ranges_run. simpl.
  rewrite length_seq. erewrite bind_Ok by exact Hrun.
  reflexivity.
Qed.

Lemma value_maps (ts : list app) (ranges : list Range) i x :
  ranges !! i = Some x →
  value (ts ++ (Parsl.AppMap <$> ranges)) (length ts + i) = Some (mapper x).
Proof.
  revert i x. induction ranges as [|y ranges IH] using rev_ind; intros i x Hi.
  { done. }
  rewrite fmap_app, app_assoc. simpl.
  destruct (decide (i < length ranges)) as [Hlt|Hge].
  - rewrite lookup_app_l in Hi by done.
    rewrite value_app by (rewrite length_app, length_fmap; lia). eauto.
  - rewrite lookup_app_r in Hi by lia.
    destruct (i - length ranges) as [|n] eqn:E; simpl in Hi; [|by destruct n].
    injection Hi as ->.
    replace (length ts + i) with (length (ts ++ (Parsl.AppMap <$> ranges)))
      by (rewrite length_app, length_fmap; lia).
    by rewrite value_snoc.
Qed.

Lemma wf_tasks_maps (ts : list app) (ranges : list Range) :
  Parsl.wf_tasks ts → Parsl.wf_tasks (ts ++ (Parsl.AppMap <$> ranges)).
Proof.
  intros Hwf f l1 l2 Hf.
  destruct (decide (f < length ts)) as [Hlt|Hge].
  - rewrite lookup_app_l in Hf by done. eauto.
  - rewrite lookup_app_r in Hf by lia. rewrite list_lookup_fmap in Hf.
    by destruct (ranges !! (f - length ts)).
Qed.

Lemma concat_singletons (vs : list A) : concat ((λ v, [v]) <$> vs) = vs.
Proof.
  induction vs as [|v vs IH]; [done|].
  rewrite fmap_cons. change (v :: concat ((λ v, [v]) <$> vs) = v :: vs).
  by rewrite IH.
Qed.

Lemma value_values (ts : list app) f v :
  value ts f = Some v ↔ values ts !! f = Some (Some v).
Proof.
  unfold Parsl.value. destruct (values ts !! f) as [[w|]|]; simpl; naive_solver.
Qed.

(** C1 (amended): for every associative reducer and every non-empty list of
    ranges, [ProcessAndMerge] returns the serial left-to-right fold of a
    cyclic rotation of the mapped ranges, which is the serial fold of the
    mapped ranges in range order when the reducer is also commutative; the
    value does not depend on the order in which the apps complete, and some
    order completes the final future. *)
Theorem ProcessAndMerge_serial_fold_of_rotation `{!Assoc (=) reducer}
    (ranges : list Range) (k : dfk) :
  ranges ≠ [] → Parsl.wf_tasks (Parsl.tasks k) →
  ∃ v f ts',
    ProcessAndMerge ranges k = (Ok v, Parsl.Dfk ts' (Parsl.waits k ++ [f]))
    ∧ (∃ l, MergeSpec.rotation (mapper <$> ranges) l ∧ serial_fold l = Some v)
    ∧ (Comm (=) reducer → serial_fold (mapper <$> ranges) = Some v)
    ∧ (∀ done v', reachable ts' done → done !! f = Some (Some v') → v' = v)
    ∧ (∃ done, reachable ts' done ∧ done !! f = Some (Some v)).
Proof.
  intros Hne Hwf.
  destruct (ProcessAndMerge_run ranges k Hne) as (f & ts' & Hfold & _ & _ & Hrun).
  destruct (worklist_fold_value _ _ _ _ ((λ x, [mapper x]) <$> ranges) Hfold)
    as (v & l & Hrot & Hv & Hf).
  { apply Forall2_same_length_lookup_2.
    - by rewrite length_seq, length_fmap.
    - intros i g seg Hg Hseg. apply lookup_seq in Hg as [-> Hi].
      rewrite list_lookup_fmap in Hseg.
      destruct (ranges !! i) as [x|] eqn:Hx; [|done]. injection Hseg as <-.
      exists (mapper x). split; [done|]. by apply value_maps. }
  rewrite list_fmap_compose with (f := mapper) (g := λ v, [v]) in Hrot.
  rewrite concat_singletons in Hrot.
  destruct (worklist_fold_wf _ _ _ _ Hfold) as [Hwf' _].
  { by apply wf_tasks_maps. }
  { apply Forall_forall. intros g Hg. apply elem_of_seq in Hg.
    rewrite length_app, length_fmap. lia. }
  exists v, f, ts'. rewrite Hrun, Hf. split; [done|].
  split; [by exists l|]. split; [|split].
  - intros Hcomm. by rewrite <- (serial_fold_rotation _ _ Hrot).
  - intros done v' Hreach Hdone.
    pose proof (reachable_sound mapper reducer ts' done Hwf' Hreach f v' Hdone).
    congruence.
  - exists (values ts'). split; [by apply reachable_values|].
    by apply value_values.
Qed.

(** C2: [ProcessAndMerge] on a non-empty list of ranges submits exactly one
    map app per range, in range order, and starts the worklist with their
    futures; its [while] loop follows the worklist protocol (the two
    front-most futures are removed, the first one as the left operand, and
    the future of the reduce app is appended to the back) until exactly one
    future remains; it waits once, for the result of that future. *)
Theorem ProcessAndMerge_worklist_protocol (ranges : list Range) (k : dfk) :
  ranges ≠ [] →
  let submitted := Parsl.tasks k ++ (Parsl.AppMap <$> ranges) in
  let worklist := seq (length (Parsl.tasks k)) (length ranges) in
  Parsl.for_ranges ranges [] k
  = (Ok worklist, Parsl.Dfk submitted (Parsl.waits k))
  ∧ ∃ f ts',
      worklist_fold worklist submitted f ts'
      ∧ Parsl.while_results (length worklist) worklist
          (Parsl.Dfk submitted (Parsl.waits k))
        = (Ok [f], Parsl.Dfk ts' (Parsl.waits k))
      ∧ length ts'
        = length (Parsl.tasks k) + length ranges + (length ranges - 1)
      ∧ (ProcessAndMerge ranges k).2 = Parsl.Dfk ts' (Parsl.waits k ++ [f])
      ∧ (ProcessAndMerge ranges k).1
        = match value ts' f with Some v => Ok v | None => Blocked end.
Proof.
  intros Hne submitted worklist. split; [apply for_ranges_run|].
  destruct (ProcessAndMerge_run ranges k Hne)
    as (f & ts' & Hfold & Hwhile & Hlen & Hrun).
  exists f, ts'. subst worklist. rewrite length_seq, Hrun. done.
Qed.

(** C8 (amended): on an empty sequence of ranges [ProcessAndMerge] submits
    no app, waits for nothing and raises the [IndexError] of [pop] on the
    empty worklist. *)
Theorem ProcessAndMerge_empty (k : dfk) :
  ProcessAndMerge [] k = (Raise (IndexError "pop from empty list"), k).
Proof. reflexivity. Qed.

End Merge.

(** C1, counterexample: list concatenation is associative, and on the three
    ranges [1; 2; 3] the merge returns [[3; 1; 2]], not the serial fold
    [[1; 2; 3]]. *)
Lemma ProcessAndMerge_not_serial_fold :
  Assoc (=) (@app nat)
  ∧ (Parsl.ProcessAndMerge (λ x : nat, [x]) app [1; 2; 3] (Parsl.Dfk [] [])).1
    = Ok [3; 1; 2]
  ∧ MergeSpec.serial_fold app ((λ x : nat, [x]) <$> [1; 2; 3]) = Some [1; 2; 3]
  ∧ Ok [3; 1; 2] ≠ Ok [1; 2; 3].
Proof. split; [apply _|]. split; [done|]. split; [done|]. by intros [=]. Qed.

Lemma ProcessAndMerge_serial_fold_of_rotation_witness :
  ∃ v f ts',
    Parsl.ProcessAndMerge (λ x : Z, x) Z.add [1; 2; 3]%Z (Parsl.Dfk [] [])
    = (Ok v, Parsl.Dfk ts' ([] ++ [f]))
    ∧ (∃ l, MergeSpec.rotation ((λ x : Z, x) <$> [1; 2; 3]%Z) l
            ∧ MergeSpec.serial_fold Z.add l = Some v)
    ∧ (Comm (=) Z.add
       → MergeSpec.serial_fold Z.add ((λ x : Z, x) <$> [1; 2; 3]%Z) = Some v)
    ∧ (∀ done v', Parsl.reachable (λ x : Z, x) Z.add ts' done
                  → done !! f = Some (Some v') → v' = v)
    ∧ (∃ done, Parsl.reachable (λ x : Z, x) Z.add ts' done
               ∧ done !! f = Some (Some v)).
Proof.
  apply (ProcessAndMerge_serial_fold_of_rotation (λ x : Z, x) Z.add
           [1; 2; 3]%Z (Parsl.Dfk [] [])).
  - done.
  - intros f l1 l2 Hf. done.
Defined.

Lemma ProcessAndMerge_worklist_protocol_witness :
  let mapper := λ x : Z, x in
  let k := Parsl.Dfk [] [] in
  let submitted := [Parsl.AppMap 1%Z; Parsl.AppMap 2%Z; Parsl.AppMap 3%Z] in
  Parsl.for_ranges [1; 2; 3]%Z [] k = (Ok [0; 1; 2], Parsl.Dfk submitted [])
  ∧ ∃ f ts',
      MergeSpec.worklist_fold [0; 1; 2] submitted f ts'
      ∧ Parsl.while_results 3 [0; 1; 2] (Parsl.Dfk submitted [])
        = (Ok [f], Parsl.Dfk ts' [])
      ∧ length ts' = 0 + 3 + (3 - 1)
      ∧ (Parsl.ProcessAndMerge mapper Z.add [1; 2; 3]%Z k).2
        = Parsl.Dfk ts' ([] ++ [f])
      ∧ (Parsl.ProcessAndMerge mapper Z.add [1; 2; 3]%Z k).1
        = match Parsl.value mapper Z.add ts' f with
          | Some v => Ok v
          | None => Blocked
          end.
Proof.
  intros mapper k submitted.
  apply (ProcessAndMerge_worklist_protocol mapper Z.add [1; 2; 3]%Z k).
  done.
Defined.

(** C8, counterexample: addition has the neutral result [0], and on an
    empty sequence of ranges the merge neither returns it nor raises an
    empty-computation error: it raises [IndexError]. *)
Lemma ProcessAndMerge_empty_no_short_circuit :
  LeftId (=) 0%Z Z.add ∧ RightId (=) 0%Z Z.add
  ∧ (Parsl.ProcessAndMerge (λ x : Z, x) Z.add [] (Parsl.Dfk [] [])).1 ≠ Ok 0%Z
  ∧ ∃ e, (Parsl.ProcessAndMerge (λ x : Z, x) Z.add [] (Parsl.Dfk [] [])).1
         = Raise e
         ∧ class_name e = "IndexError"
         ∧ class_name e ≠ "EmptyComputationError".
Proof.
  split; [apply _|]. split; [apply _|]. split; [done|].
  eexists. split; [reflexivity|]. done.
Qed.

(** ** Construction of the Parsl backend and selection of a backend *)

Section Selection.

Variable globals : string → option (gmap string atom → exn + executor).
Variable config_error : list executor → option exn.
Variable load_error : Config → option exn.
Variable type_error_text : call_error → string.

#[local] Abbreviation make_executor :=
  (Parsl.make_executor globals type_error_text).
#[local] Abbreviation __init__ :=
  (Parsl.__init__ globals config_error load_error type_error_text).
#[local] Abbreviation use :=
  (PyRDF.use globals config_error load_error type_error_text).

Lemma make_executor_Ok conf w ex w' :
  make_executor conf w = (Ok ex, w') → w' = w.
Proof.
  unfold Parsl.make_executor, Parsl.globals_getitem.
  unfold mbind, M_bind, Py.bind, mret, M_ret, Py.ret, Py.raise. intros H.
  repeat (case_match; simplify_eq; try done).
Qed.

Lemma get_partitions_state (self : parsl_backend) (w w' : process) o :
  Parsl._get_partitions self w = (o, w') → w' = w.
Proof.
  unfold Parsl._get_partitions, Parsl.executor0_max_threads.
  unfold mbind, M_bind, Py.bind, Parsl.int, mret, M_ret, Py.ret, Py.raise.
  intros H. repeat (case_match; simplify_eq; try done).
Qed.

(** X18: where the executor has the attribute [max_threads], the partition
    count of a Parsl backend is the configured [npartitions] when that is a
    positive integer; without [npartitions], the [max_threads] of its first
    executor when that is a positive integer, and the default 4 when
    [max_threads] is [None]. *)
Theorem get_partitions_precedence (self : parsl_backend) (w : process) :
  (∀ n, npartitions self = Some n → (0 < n)%Z →
        Parsl._get_partitions self w = (Ok n, w))
  ∧ (∀ e es m, npartitions self = None →
               executors (parslConfig self) = e :: es →
               max_threads e = Some (Some m) → (0 < m)%Z →
               Parsl._get_partitions self w = (Ok m, w))
  ∧ (∀ e es, npartitions self = None →
             executors (parslConfig self) = e :: es →
             max_threads e = Some None →
             Parsl._get_partitions self w = (Ok 4%Z, w)).
Proof.
  unfold Parsl._get_partitions, Parsl.executor0_max_threads.
  split; [|split].
  - intros n -> Hn. simpl. destruct (Z.eqb_spec n 0); [lia|]. done.
  - intros e es m -> -> Hm Hpos. simpl.
    unfold mbind, M_bind, Py.bind. rewrite Hm. simpl.
    destruct (Z.eqb_spec m 0); [lia|]. done.
  - intros e es -> -> Hm. simpl.
    unfold mbind, M_bind, Py.bind. rewrite Hm. done.
Qed.

(** Python's [or] takes a configured 0 for no value, and looks up
    [max_threads] only when it needs it. *)
Lemma get_partitions_falsy (self : parsl_backend) (w : process) e es :
  npartitions self = Some 0%Z →
  executors (parslConfig self) = e :: es →
  Parsl._get_partitions self w
  = match max_threads e with
    | None => (Raise (AttributeError (executor_class e) "max_threads"), w)
    | Some mt => (Ok (if Parsl.truthy mt then default 4%Z mt else 4%Z), w)
    end.
Proof.
  intros Hn He. unfold Parsl._get_partitions, Parsl.executor0_max_threads.
  rewrite Hn, He. simpl. unfold mbind, M_bind, Py.bind.
  destruct (max_threads e) as [[m|]|]; simpl; [|done|done].
  by destruct (m =? 0)%Z.
Qed.

(** C10: every construction of a Parsl backend that succeeds has called
    [parsl.clear()] and then [parsl.load] on the configuration of its own
    executor; the configuration that parsl holds afterwards is that of the
    new backend, whatever an earlier backend had loaded, and nothing else of
    the process has changed. *)
Theorem Parsl_init_reloads conf (w w' : process) (self : parsl_backend) :
  __init__ conf w = (Ok self, w') →
  ∃ ex, parslConfig self = MkConfig [ex]
        ∧ calls w' = calls w ++ [ParslClear; ParslLoad (parslConfig self)]
        ∧ parsl_loaded w' = Some (parslConfig self)
        ∧ w' = set_parsl_loaded (Some (parslConfig self))
                 (add_calls [ParslClear; ParslLoad (parslConfig self)] w).
Proof.
  unfold Parsl.__init__. intros H.
  destruct (make_executor conf w) as [[ex| | |] w1] eqn:Hex;
    try (by rewrite (bind_Raise _ _ _ _ _ Hex) in H);
    try (unfold mbind, M_bind, Py.bind in H; by rewrite Hex in H).
  apply make_executor_Ok in Hex as Hw. subst w1.
  erewrite bind_Ok in H by exact Hex.
  unfold Parsl.make_config in H.
  unfold Parsl.parsl_clear, Parsl.parsl_load, call, Py.modify, Py.gets in H.
  unfold mbind, M_bind, Py.bind in H.
  destruct (config_error [ex]) as [e|]; [done|]. simpl in H.
  destruct (load_error (MkConfig [ex])) as [e|]; [done|]. simpl in H.
  match type of H with
  | context [Parsl._get_partitions ?s ?w0] =>
      destruct (Parsl._get_partitions s w0) as [o w2] eqn:Hn;
      apply get_partitions_state in Hn as ->
  end.
  destruct o as [n| | |]; try done.
  injection H as <- <-. exists ex. simpl.
  unfold set_parsl_loaded, add_calls. simpl.
  rewrite <- app_assoc. done.
Qed.

(** C3: [use] raises [Exception] for every name outside
    [local, spark, parsl, dask] and the distinct [NotImplementedError] for
    [dask], and leaves the process as it was; the construction of the Parsl
    backend from a configuration without the key [executor], or without the
    key [parameters], raises the [KeyError] of that key before anything is
    loaded, and so does [use] of [parsl]. *)
Theorem use_errors :
  (∀ name conf w,
     name ∉ ["local"; "spark"; "parsl"; "dask"] →
     use name conf w
     = (Raise (Exception ("Incorrect backend environment " +:+ PyRDF.quote
                            +:+ name +:+ PyRDF.quote)), w))
  ∧ (∀ conf w,
       use "dask" conf w
       = (Raise (NotImplementedError
                   "This backend environment will be considered in the future !"),
          w))
  ∧ (∀ m m', class_name (NotImplementedError m) ≠ class_name (Exception m'))
  ∧ (∀ conf w,
       conf !! "executor" = None →
       __init__ conf w = (Raise (KeyError "executor"), w)
       ∧ use "parsl" conf w = (Raise (KeyError "executor"), w))
  ∧ (∀ conf w name callee,
       conf !! "executor" = Some (CAtom (AStr name)) →
       globals name = Some callee →
       conf !! "parameters" = None →
       __init__ conf w = (Raise (KeyError "parameters"), w)
       ∧ use "parsl" conf w = (Raise (KeyError "parameters"), w)).
Proof.
  split; [|split; [|split; [|split]]].
  - intros name conf w Hname. unfold PyRDF.use.
    rewrite !not_elem_of_cons in Hname.
    destruct Hname as (H1 & H2 & H3 & H4 & _).
    rewrite bool_decide_false
      by (unfold PyRDF.future_backends; rewrite not_elem_of_cons;
          split; [done|apply not_elem_of_nil]).
    apply String.eqb_neq in H1, H2, H3. by rewrite H1, H2, H3.
  - done.
  - done.
  - intros conf w Hex.
    assert (__init__ conf w = (Raise (KeyError "executor"), w)) as Hinit.
    { unfold Parsl.__init__, Parsl.make_executor. rewrite Hex. done. }
    split; [done|]. unfold PyRDF.use. simpl.
    by rewrite (bind_Raise _ _ _ _ _ Hinit).
  - intros conf w name callee Hex Hname Hpar.
    assert (__init__ conf w = (Raise (KeyError "parameters"), w)) as Hinit.
    { unfold Parsl.__init__, Parsl.make_executor, Parsl.globals_getitem.
      rewrite Hex. unfold mbind, M_bind, Py.bind. simpl.
      rewrite Hname. simpl. rewrite Hpar. done. }
    split; [done|]. unfold PyRDF.use. simpl.
    by rewrite (bind_Raise _ _ _ _ _ Hinit).
Qed.

End Selection.

(** C4, at the failing input: the instance that [Parsl.__init__] builds for
    a [HighThroughputExecutor] without keyword arguments has no configured
    [npartitions], and its executor has no attribute [max_threads];
    [_get_partitions] then raises [AttributeError] from whatever process it
    is called in, and does not return the default 4. *)
Theorem get_partitions_without_max_threads_raises :
  let conf : gmap string cval :=
    {[ "executor" := CAtom (AStr "HighThroughputExecutor");
       "parameters" := CDict ∅ ]} in
  let ex := Executor "HighThroughputExecutor" None in
  let self := ParslBackend conf (Parsl.Dist_init conf) (MkConfig [ex]) in
  Parsl.make_executor Examples.globals Examples.type_error_text conf imported
  = (Ok ex, imported)
  ∧ npartitions self = None
  ∧ max_threads ex = None
  ∧ (∀ w : process,
       Parsl._get_partitions self w
       = (Raise (AttributeError "HighThroughputExecutor" "max_threads"), w))
  ∧ (∀ w : process, Parsl._get_partitions self w ≠ (Ok 4%Z, w)).
Proof.
  intros conf ex self.
  split; [vm_compute; reflexivity|]. split; [reflexivity|].
  split; [reflexivity|].
  assert (∀ w : process,
            Parsl._get_partitions self w
            = (Raise (AttributeError "HighThroughputExecutor" "max_threads"),
               w)) as H by (intros w; reflexivity).
  split; [exact H|]. intros w. rewrite H. discriminate.
Qed.

Lemma get_partitions_precedence_witness :
  let threads := λ mt, MkConfig [Executor "ThreadPoolExecutor" (Some mt)] in
  Parsl._get_partitions (ParslBackend ∅ (Some 5%Z) (threads (Some 16%Z)))
    imported = (Ok 5%Z, imported)
  ∧ Parsl._get_partitions (ParslBackend ∅ None (threads (Some 16%Z)))
      imported = (Ok 16%Z, imported)
  ∧ Parsl._get_partitions (ParslBackend ∅ None (threads None))
      imported = (Ok 4%Z, imported).
Proof.
  intros threads. split; [|split].
  - apply (proj1 (get_partitions_precedence _ _)); [reflexivity|lia].
  - eapply (proj1 (proj2 (get_partitions_precedence _ _)));
      [reflexivity|reflexivity|reflexivity|lia].
  - eapply (proj2 (proj2 (get_partitions_precedence _ _)));
      reflexivity.
Defined.

Lemma Parsl_init_reloads_witness :
  let cfg := MkConfig [Executor "ThreadPoolExecutor" (Some (Some 16%Z))] in
  let self := ParslBackend Examples.conf (Some 16%Z) cfg in
  let w' := Process (Some cfg) (Local ∅) ∅ ∅ ∅ [ParslClear; ParslLoad cfg] in
  Parsl.__init__ Examples.globals Examples.config_error
    Examples.load_error Examples.type_error_text Examples.conf
    Examples.earlier = (Ok self, w')
  ∧ ∃ ex, parslConfig self = MkConfig [ex]
          ∧ calls w' = calls Examples.earlier
                         ++ [ParslClear; ParslLoad (parslConfig self)]
          ∧ parsl_loaded w' = Some (parslConfig self)
          ∧ w' = set_parsl_loaded (Some (parslConfig self))
                   (add_calls [ParslClear; ParslLoad (parslConfig self)]
                      Examples.earlier).
Proof.
  intros cfg self w'.
  assert (Parsl.__init__ Examples.globals Examples.config_error
            Examples.load_error Examples.type_error_text Examples.conf
            Examples.earlier
          = (Ok self, w')) as H by (vm_compute; reflexivity).
  split; [exact H|].
  exact (Parsl_init_reloads Examples.globals Examples.config_error
           Examples.load_error Examples.type_error_text Examples.conf
           Examples.earlier
           w' self H).
Defined.

Lemma use_errors_witness :
  let use := PyRDF.use Examples.globals Examples.config_error
               Examples.load_error Examples.type_error_text in
  use "cluster" ∅ imported
  = (Raise (Exception ("Incorrect backend environment " +:+ PyRDF.quote
                         +:+ "cluster" +:+ PyRDF.quote)), imported)
  ∧ use "parsl" ∅ imported
    = (Raise (KeyError "executor"), imported)
  ∧ use "parsl"
      {[ "executor" := CAtom (AStr "ThreadPoolExecutor") ]} imported
    = (Raise (KeyError "parameters"), imported).
Proof.
  intros use.
  destruct (use_errors Examples.globals Examples.config_error
              Examples.load_error Examples.type_error_text)
    as (Hname & _ & _ & Hex & Hpar).
  split; [|split].
  - apply Hname. rewrite !not_elem_of_cons.
    repeat split; [done..|apply not_elem_of_nil].
  - apply Hex. reflexivity.
  - eapply Hpar; reflexivity.
Defined.

(** ** Registration of files *)

(** [endswith s suffix] holds exactly of the strings that end in [suffix]. *)
Lemma endswith_unfold (s suffix : string) :
  endswith s suffix
  = if String.eqb s suffix then true
    else match s with
         | EmptyString => false
         | String _ s' => endswith s' suffix
         end.
Proof. by destruct s. Qed.

Lemma endswith_spec (s suffix : string) :
  endswith s suffix = true ↔ ∃ stem, s = stem +:+ suffix.
Proof.
  split.
  - induction s as [|c s IH]; rewrite endswith_unfold.
    + destruct (String.eqb_spec EmptyString suffix) as [<-|]; [|done].
      by exists EmptyString.
    + destruct (String.eqb_spec (String c s) suffix) as [<-|Hne].
      * by exists EmptyString.
      * intros H. destruct (IH H) as [stem ->]. by exists (String c stem).
  - intros [stem ->]. induction stem as [|c stem IH].
    + rewrite endswith_unfold. simpl.
      by rewrite (proj2 (String.eqb_eq _ _) eq_refl).
    + rewrite endswith_unfold.
      change (String c stem +:+ suffix) with (String c (stem +:+ suffix)).
      destruct (String.eqb _ _); [done|exact IH].
Qed.

Arguments endswith_any : simpl never.

(** *** Directories *)

Lemma fsnode_nested_ind (P : fsnode → Prop) :
  P FFile →
  (∀ entries, Forall (λ e, P e.2) entries → P (FDir entries)) →
  ∀ node, P node.
Proof.
  intros Hfile Hdir. fix IH 1. intros [|entries]; [exact Hfile|].
  apply Hdir. induction entries as [|e entries IHentries]; constructor.
  - apply IH.
  - exact IHentries.
Qed.

Lemma elem_of_filenames entries name :
  name ∈ os.filenames entries ↔ (name, FFile) ∈ entries.
Proof.
  unfold os.filenames. rewrite list_elem_of_omap. split.
  - intros ([n [|es]] & Hin & Heq); simpl in Heq; [|done].
    by injection Heq as ->.
  - intros Hin. by exists (name, FFile).
Qed.

(** The walk of a directory finds exactly the files beneath it, at any
    depth. *)
Lemma walk_node_beneath node top path :
  path ∈ ('(rootpath, dirs, filenames) ← os.walk_node top node;
          filename ← filenames;
          [os.join rootpath filename])
  ↔ RegistrySpec.file_beneath top node path.
Proof.
  revert top. induction node as [|entries IH] using fsnode_nested_ind;
    intros top.
  - split; [by intros ?%elem_of_nil|]. inversion 1.
  - cbn [os.walk_node]. rewrite bind_cons, elem_of_app.
    rewrite !list_elem_of_bind. split.
    + intros [(name & Hpath & Hname)|([[root dirs] files] & Hpath & Htriple)].
      * apply list_elem_of_singleton in Hpath as ->.
        apply elem_of_filenames in Hname. by constructor.
      * apply list_elem_of_bind in Htriple as (e & Htriple & He).
        destruct e as [name sub].
        apply (RegistrySpec.beneath_sub top entries name sub); [done|].
        apply (proj1 (Forall_forall _ _) IH _ He). simpl.
        apply list_elem_of_bind. by exists (root, dirs, files).
    + inversion 1 as [top' entries' name Hname|top' entries' name sub path' He Hsub];
        subst.
      * left. exists name. split; [by apply list_elem_of_singleton|].
        by apply elem_of_filenames.
      * right. apply (proj1 (Forall_forall _ _) IH _ He) in Hsub. simpl in Hsub.
        apply list_elem_of_bind in Hsub as (triple & Hpath & Htriple).
        exists triple. split; [done|].
        apply list_elem_of_bind. by exists (name, sub).
Qed.

Section Registration.

Variable fs : string → option fsnode.

#[local] Abbreviation _get_paths_set_from_string :=
  (PyRDF._get_paths_set_from_string fs).
#[local] Abbreviation collect := (PyRDF.collect fs).
#[local] Abbreviation include_headers := (PyRDF.include_headers fs).
#[local] Abbreviation include_shared_libraries :=
  (PyRDF.include_shared_libraries fs).
#[local] Abbreviation send_generic_files := (PyRDF.send_generic_files fs).
#[local] Abbreviation unresolved := (RegistrySpec.unresolved fs).
#[local] Abbreviation all_paths := (RegistrySpec.all_paths fs).

Lemma unresolved_None path :
  unresolved path ↔ _get_paths_set_from_string path = None.
Proof.
  unfold RegistrySpec.unresolved, PyRDF._get_paths_set_from_string.
  destruct (os.isdir fs path), (os.isfile fs path); naive_solver.
Qed.

(** Registering a directory finds every file beneath it, recursively, and
    nothing else; registering a file finds the file. *)
Lemma get_paths_directory path entries :
  fs path = Some (FDir entries) →
  ∃ s, _get_paths_set_from_string path = Some s
       ∧ ∀ file, file ∈ s
                 ↔ RegistrySpec.file_beneath path (FDir entries) file.
Proof.
  intros Hfs. unfold PyRDF._get_paths_set_from_string, os.isdir, os.walk.
  rewrite Hfs. eexists. split; [done|]. intros file.
  rewrite elem_of_list_to_set. apply walk_node_beneath.
Qed.

Lemma get_paths_file path :
  fs path = Some FFile → _get_paths_set_from_string path = Some {[ path ]}.
Proof.
  intros Hfs. unfold PyRDF._get_paths_set_from_string, os.isdir, os.isfile.
  by rewrite Hfs.
Qed.

Lemma update_each_Ok path_strings sets to_include (w : process) :
  mapM _get_paths_set_from_string path_strings = Some sets →
  PyRDF.update_each fs to_include path_strings w
  = (Ok (to_include ∪ ⋃ sets), w).
Proof.
  revert sets to_include.
  induction path_strings as [|p ps IH]; intros sets acc Hsets.
  - injection Hsets as <-. simpl. by rewrite (right_id_L ∅ (∪)).
  - simpl in Hsets.
    destruct (_get_paths_set_from_string p) as [s|] eqn:Hp; [|done].
    destruct (mapM _get_paths_set_from_string ps) as [ss|] eqn:Hps; [|done].
    injection Hsets as <-. simpl. rewrite Hp. simpl.
    erewrite bind_Ok by reflexivity. rewrite (IH ss) by done.
    by rewrite (assoc_L (∪)).
Qed.

Lemma update_each_Raise path_strings to_include (w : process) :
  (∃ path, path ∈ path_strings ∧ unresolved path) →
  PyRDF.update_each fs to_include path_strings w
  = (Raise PyRDF.not_iterable, w).
Proof.
  intros (path & Hin & Hun). revert to_include.
  induction path_strings as [|p ps IH]; intros acc.
  - by apply elem_of_nil in Hin.
  - simpl. destruct (_get_paths_set_from_string p) as [s|] eqn:Hp.
    + erewrite bind_Ok by reflexivity. apply IH.
      apply elem_of_cons in Hin as [->|Hin]; [|done].
      apply unresolved_None in Hun. congruence.
    + done.
Qed.

Lemma collect_Ok arg all (w : process) :
  all_paths arg = Some all → collect arg w = (Ok all, w).
Proof.
  unfold RegistrySpec.all_paths. intros H.
  destruct (mapM _ _) as [sets|] eqn:Hsets; [|done]. injection H as <-.
  destruct arg as [p|ps]; simpl in *.
  - destruct (_get_paths_set_from_string p) as [s|] eqn:Hp; [|done].
    injection Hsets as <-. simpl.
    erewrite bind_Ok by reflexivity. unfold mret, M_ret, Py.ret.
    by rewrite (right_id_L ∅ (∪)), (left_id_L ∅ (∪)).
  - rewrite (update_each_Ok _ sets) by done. by rewrite (left_id_L ∅ (∪)).
Qed.

Lemma collect_Raise arg (w : process) :
  (∃ path, path ∈ RegistrySpec.paths_of arg ∧ unresolved path) →
  collect arg w = (Raise PyRDF.not_iterable, w).
Proof.
  destruct arg as [p|ps]; simpl.
  - intros (path & Hin & Hun). apply list_elem_of_singleton in Hin as ->.
    apply unresolved_None in Hun. by rewrite Hun.
  - apply update_each_Raise.
Qed.

Lemma all_paths_None arg :
  all_paths arg = None
  ↔ ∃ path, path ∈ RegistrySpec.paths_of arg ∧ unresolved path.
Proof.
  unfold RegistrySpec.all_paths.
  generalize (RegistrySpec.paths_of arg) as ps. intros ps. split.
  - intros H. induction ps as [|p ps IH]; [done|]. simpl in H.
    destruct (_get_paths_set_from_string p) as [s|] eqn:Hp.
    + destruct (mapM _get_paths_set_from_string ps) as [ss|] eqn:Hps; [done|].
      destruct IH as (path & Hin & Hun); [done|].
      exists path. split; [by apply elem_of_cons; right|done].
    + exists p. split; [by apply elem_of_cons; left|by apply unresolved_None].
  - intros (path & Hin & Hun). apply unresolved_None in Hun.
    destruct (mapM _get_paths_set_from_string ps) as [sets|] eqn:Hsets; [|done].
    assert (is_Some (_get_paths_set_from_string path)) as [s Hs].
    { assert (is_Some (mapM _get_paths_set_from_string ps)) as Hsome
        by (by rewrite Hsets).
      apply mapM_is_Some in Hsome.
      by apply (proj1 (Forall_forall _ _) Hsome). }
    congruence.
Qed.

(** *** The calls that leave the package *)

Lemma add_calls_nil (w : process) : add_calls [] w = w.
Proof. destruct w. unfold add_calls. simpl. by rewrite app_nil_r. Qed.

Lemma add_calls_app es es' (w : process) :
  add_calls es' (add_calls es w) = add_calls (es ++ es') w.
Proof. unfold add_calls. simpl. by rewrite app_assoc. Qed.

Lemma for_each_call {T} (f : T → event) (xs : list T) (w : process) :
  Py.for_each (λ x, call (f x)) xs w = (Ok tt, add_calls (f <$> xs) w).
Proof.
  revert w. induction xs as [|x xs IH]; intros w; simpl.
  - by rewrite add_calls_nil.
  - unfold Py.bind, call, Py.modify at 1. rewrite IH.
    by rewrite add_calls_app.
Qed.

(** [Parsl.distribute_files] returns only when there is nothing to
    distribute; it adds no file. *)
Lemma distribute_files_Parsl (self : parsl_backend) (s : gset string)
    (w : process) :
  Parsl.distribute_files self s w
  = if decide (s = ∅) then (Ok tt, w)
    else (Raise (AttributeError "Parsl" "sparkContext"), w).
Proof.
  unfold Parsl.distribute_files.
  destruct (elements s) as [|x xs] eqn:E.
  - apply elements_empty_inv in E. apply leibniz_equiv in E.
    by rewrite decide_True.
  - rewrite decide_False; [done|].
    intros ->. by rewrite elements_empty in E.
Qed.

Lemma distribute_files_Spark conf (s : gset string) (w : process) :
  PyRDF.distribute_files (Spark conf) s w
  = (Ok tt, add_calls (AddFile <$> elements s) w).
Proof. apply for_each_call. Qed.

(** *** The three entry points *)

#[local] Abbreviation pcm_of all :=
  (filter (λ filepath : string, endswith filepath ".pcm") all : gset string).
#[local] Abbreviation libraries_of all :=
  (filter (λ filepath : string,
             endswith_any filepath PyRDF.shared_library_formats) all
   : gset string).

Lemma check_pcm_Ok path s (w : process) :
  _get_paths_set_from_string path = Some s →
  PyRDF._check_pcm_in_library_path fs path w
  = (Ok (pcm_of s, libraries_of s), w).
Proof. intros H. unfold PyRDF._check_pcm_in_library_path. by rewrite H. Qed.

Lemma check_pcm_Raise path (w : process) :
  unresolved path →
  PyRDF._check_pcm_in_library_path fs path w = (Raise PyRDF.not_iterable, w).
Proof.
  intros H. apply unresolved_None in H.
  unfold PyRDF._check_pcm_in_library_path. by rewrite H.
Qed.

Lemma check_each_Ok path_strings sets libraries pcm (w : process) :
  mapM _get_paths_set_from_string path_strings = Some sets →
  PyRDF.check_each fs libraries pcm path_strings w
  = (Ok (pcm ∪ pcm_of (⋃ sets), libraries ∪ libraries_of (⋃ sets)), w).
Proof.
  revert sets libraries pcm.
  induction path_strings as [|p ps IH]; intros sets libraries pcm Hsets.
  - injection Hsets as <-. simpl.
    rewrite !filter_empty_L, !union_empty_r_L; [reflexivity|apply _..].
  - simpl in Hsets.
    destruct (_get_paths_set_from_string p) as [s|] eqn:Hp; [|done].
    destruct (mapM _get_paths_set_from_string ps) as [ss|] eqn:Hps; [|done].
    injection Hsets as <-. simpl.
    erewrite bind_Ok by (by apply check_pcm_Ok). lazy beta iota.
    rewrite (IH ss) by done.
    rewrite !filter_union_L, !(assoc_L (∪)); [reflexivity|apply _..].
Qed.

Lemma check_each_Raise path_strings libraries pcm (w : process) :
  (∃ path, path ∈ path_strings ∧ unresolved path) →
  PyRDF.check_each fs libraries pcm path_strings w
  = (Raise PyRDF.not_iterable, w).
Proof.
  intros (path & Hin & Hun). revert libraries pcm.
  induction path_strings as [|p ps IH]; intros libraries pcm.
  - by apply elem_of_nil in Hin.
  - simpl. destruct (_get_paths_set_from_string p) as [s|] eqn:Hp.
    + erewrite bind_Ok by (by apply check_pcm_Ok). lazy beta iota.
      apply IH.
      apply elem_of_cons in Hin as [->|Hin]; [|done].
      apply unresolved_None in Hun. congruence.
    + erewrite bind_Raise; [done|]. by apply check_pcm_Raise, unresolved_None.
Qed.

(** [include_headers] on paths that all resolve. *)
Lemma include_headers_run arg all (w : process) :
  all_paths arg = Some all →
  let declared es :=
    set_includes_headers (includes_headers w ∪ all)
      (add_calls (es ++ [DeclareHeaders all]) w) in
  include_headers arg w
  = match current_backend w with
    | Local _ => (Ok tt, declared [])
    | Spark _ => (Ok tt, declared (AddFile <$> elements all))
    | Parsl _ =>
        if decide (all = ∅) then (Ok tt, declared [])
        else (Raise (AttributeError "Parsl" "sparkContext"), w)
    end.
Proof.
  intros Hall declared. unfold PyRDF.include_headers.
  erewrite bind_Ok by (by apply collect_Ok).
  erewrite bind_Ok by reflexivity.
  destruct (current_backend w) as [c|c|self] eqn:Hb; simpl.
  - reflexivity.
  - erewrite bind_Ok by apply (distribute_files_Spark c).
    subst declared. unfold mbind, M_bind, Py.bind, PyRDF.declare_headers,
      call, Py.modify, add_calls, set_includes_headers. simpl.
    by rewrite <- app_assoc.
  - unfold mbind at 1, M_bind at 1, Py.bind at 1.
    rewrite distribute_files_Parsl. destruct (decide (all = ∅)); [|done].
    subst declared. unfold mbind, M_bind, Py.bind, PyRDF.declare_headers,
      call, Py.modify, add_calls, set_includes_headers. done.
Qed.

Lemma check_arg_Ok arg all (w : process) :
  all_paths arg = Some all →
  match arg with
  | PyRDF.PathStr path_string =>
      PyRDF._check_pcm_in_library_path fs path_string
  | PyRDF.PathIter path_strings => PyRDF.check_each fs ∅ ∅ path_strings
  end w
  = (Ok (pcm_of all, libraries_of all), w).
Proof.
  unfold RegistrySpec.all_paths. intros H.
  destruct (mapM _ _) as [sets|] eqn:Hsets; [|done]. injection H as <-.
  destruct arg as [p|ps]; simpl in Hsets.
  - destruct (_get_paths_set_from_string p) as [s|] eqn:Hp; [|done].
    injection Hsets as <-. simpl. rewrite union_empty_r_L.
    by apply check_pcm_Ok.
  - rewrite (check_each_Ok _ sets) by done. by rewrite !union_empty_l_L.
Qed.

Lemma check_arg_Raise arg (w : process) :
  (∃ path, path ∈ RegistrySpec.paths_of arg ∧ unresolved path) →
  match arg with
  | PyRDF.PathStr path_string =>
      PyRDF._check_pcm_in_library_path fs path_string
  | PyRDF.PathIter path_strings => PyRDF.check_each fs ∅ ∅ path_strings
  end w
  = (Raise PyRDF.not_iterable, w).
Proof.
  destruct arg as [p|ps]; simpl.
  - intros (path & Hin & Hun). apply list_elem_of_singleton in Hin as ->.
    by apply check_pcm_Raise.
  - apply check_each_Raise.
Qed.

Lemma declare_shared_libraries_run libs (w : process) :
  (PyRDF.declare_shared_libraries libs
   ≫= λ _, Py.modify (λ w, set_includes_shared_libraries
                             (includes_shared_libraries w
                                ∪ includes_shared_libraries w) w)) w
  = (Ok tt, add_calls [DeclareSharedLibraries libs] w).
Proof.
  unfold mbind, M_bind, Py.bind, PyRDF.declare_shared_libraries, call,
    Py.modify, add_calls, set_includes_shared_libraries. simpl.
  by rewrite union_idemp_L.
Qed.

(** [include_shared_libraries] on paths that all resolve. *)
Lemma include_shared_libraries_run arg all (w : process) :
  all_paths arg = Some all →
  let declared es :=
    add_calls (es ++ [DeclareSharedLibraries (libraries_of all)]) w in
  include_shared_libraries arg w
  = match current_backend w with
    | Local _ => (Ok tt, declared [])
    | Spark _ =>
        (Ok tt, declared ((AddFile <$> elements (libraries_of all))
                            ++ (AddFile <$> elements (pcm_of all))))
    | Parsl _ =>
        if decide (libraries_of all = ∅ ∧ pcm_of all = ∅)
        then (Ok tt, declared [])
        else (Raise (AttributeError "Parsl" "sparkContext"), w)
    end.
Proof.
  intros Hall declared. unfold PyRDF.include_shared_libraries.
  erewrite bind_Ok by (by apply check_arg_Ok). lazy beta iota.
  erewrite bind_Ok by reflexivity.
  destruct (current_backend w) as [c|c|self] eqn:Hb; simpl.
  - erewrite bind_Ok by reflexivity. apply declare_shared_libraries_run.
  - erewrite bind_Ok.
    2:{ erewrite bind_Ok by apply (distribute_files_Spark c).
        apply (distribute_files_Spark c). }
    rewrite declare_shared_libraries_run, !add_calls_app.
    subst declared. simpl. by rewrite <- app_assoc.
  - pose proof (distribute_files_Parsl self (libraries_of all) w) as Hlibs.
    pose proof (distribute_files_Parsl self (pcm_of all) w) as Hpcm.
    destruct (decide (libraries_of all = ∅)) as [Hl|Hl].
    + destruct (decide (pcm_of all = ∅)) as [Hp|Hp].
      * rewrite decide_True by done.
        erewrite bind_Ok by (erewrite bind_Ok by exact Hlibs; exact Hpcm).
        apply declare_shared_libraries_run.
      * rewrite decide_False by naive_solver.
        erewrite bind_Raise; [done|].
        erewrite bind_Ok by exact Hlibs. exact Hpcm.
    + rewrite decide_False by naive_solver.
      erewrite bind_Raise; [done|]. by erewrite bind_Raise by exact Hlibs.
Qed.

(** [send_generic_files] on paths that all resolve. *)
Lemma send_generic_files_run arg all (w : process) :
  all_paths arg = Some all →
  send_generic_files arg w
  = match current_backend w with
    | Local _ => (Ok tt, w)
    | Spark _ => (Ok tt, add_calls (AddFile <$> elements all) w)
    | Parsl _ =>
        if decide (all = ∅) then (Ok tt, w)
        else (Raise (AttributeError "Parsl" "sparkContext"), w)
    end.
Proof.
  intros Hall. unfold PyRDF.send_generic_files.
  erewrite bind_Ok by (by apply collect_Ok).
  erewrite bind_Ok by reflexivity.
  destruct (current_backend w) as [c|c|self] eqn:Hb; simpl.
  - reflexivity.
  - apply (distribute_files_Spark c).
  - apply distribute_files_Parsl.
Qed.

(** The entry points on a path that does not resolve: the [None] of
    [_get_paths_set_from_string] is iterated over, before anything else
    happens. *)
Lemma entry_points_unresolved arg (w : process) :
  (∃ path, path ∈ RegistrySpec.paths_of arg ∧ unresolved path) →
  include_headers arg w = (Raise PyRDF.not_iterable, w)
  ∧ include_shared_libraries arg w = (Raise PyRDF.not_iterable, w)
  ∧ send_generic_files arg w = (Raise PyRDF.not_iterable, w).
Proof.
  intros H. split; [|split].
  - unfold PyRDF.include_headers.
    by erewrite bind_Raise by (by apply collect_Raise).
  - unfold PyRDF.include_shared_libraries.
    by erewrite bind_Raise by (by apply check_arg_Raise).
  - unfold PyRDF.send_generic_files.
    by erewrite bind_Raise by (by apply collect_Raise).
Qed.

(** C7 (amended): for every path string passed to a file-registration entry
    point that resolves to neither an existing file nor an existing
    directory, the entry point raises a [TypeError] (the [None] of
    [_get_paths_set_from_string] is iterated over) at registration time,
    before anything is distributed, declared or registered. *)
Theorem registration_unresolved_raises_TypeError arg (w : process) :
  (∃ path, path ∈ RegistrySpec.paths_of arg ∧ unresolved path) →
  class_name PyRDF.not_iterable = "TypeError"
  ∧ include_headers arg w = (Raise PyRDF.not_iterable, w)
  ∧ include_shared_libraries arg w = (Raise PyRDF.not_iterable, w)
  ∧ send_generic_files arg w = (Raise PyRDF.not_iterable, w).
Proof. intros H. split; [done|]. by apply entry_points_unresolved. Qed.

(** *** The three sets of the registry *)

(** [include_shared_libraries] never changes the set of shared libraries,
    and [send_generic_files] never changes the set of generic files. *)
Lemma include_shared_libraries_registry arg (w : process) :
  includes_shared_libraries (include_shared_libraries arg w).2
  = includes_shared_libraries w.
Proof.
  destruct (all_paths arg) as [all|] eqn:Hall.
  - rewrite (include_shared_libraries_run arg all w Hall).
    destruct (current_backend w); [done..|]. by case_decide.
  - apply all_paths_None in Hall.
    by rewrite (proj1 (proj2 (entry_points_unresolved arg w Hall))).
Qed.

Lemma send_generic_files_registry arg (w : process) :
  includes_files (send_generic_files arg w).2 = includes_files w.
Proof.
  destruct (all_paths arg) as [all|] eqn:Hall.
  - rewrite (send_generic_files_run arg all w Hall).
    destruct (current_backend w); [done..|]. by case_decide.
  - apply all_paths_None in Hall.
    by rewrite (proj2 (proj2 (entry_points_unresolved arg w Hall))).
Qed.

(** [include_headers] adds the files found to the set of headers; a second
    registration of the same paths leaves the set as it is. *)
Lemma include_headers_registers arg all (w w' : process) :
  all_paths arg = Some all →
  include_headers arg w = (Ok tt, w') →
  includes_headers w' = includes_headers w ∪ all
  ∧ current_backend w' = current_backend w.
Proof.
  intros Hall. rewrite (include_headers_run arg all w Hall).
  destruct (current_backend w) eqn:Hb.
  - intros [= <-]. simpl. done.
  - intros [= <-]. simpl. done.
  - case_decide; [|done]. intros [= <-]. simpl. done.
Qed.

Lemma include_headers_twice arg all (w w1 w2 : process) :
  all_paths arg = Some all →
  include_headers arg w = (Ok tt, w1) →
  include_headers arg w1 = (Ok tt, w2) →
  includes_headers w2 = includes_headers w1.
Proof.
  intros Hall H1 H2.
  destruct (include_headers_registers arg all w w1 Hall H1) as [E1 _].
  destruct (include_headers_registers arg all w1 w2 Hall H2) as [E2 _].
  rewrite E2, E1. set_solver.
Qed.

Lemma elem_of_pcm_of (all : gset string) path :
  path ∈ pcm_of all ↔ path ∈ all ∧ ∃ stem, path = stem +:+ ".pcm".
Proof.
  rewrite elem_of_filter, <- endswith_spec, Is_true_true. naive_solver.
Qed.

Lemma elem_of_libraries_of (all : gset string) path :
  path ∈ libraries_of all
  ↔ path ∈ all ∧ ∃ stem, path = stem +:+ ".so" ∨ path = stem +:+ ".dll"
                         ∨ path = stem +:+ ".dylib".
Proof.
  rewrite elem_of_filter, Is_true_true.
  unfold endswith_any, PyRDF.shared_library_formats. simpl.
  rewrite !orb_true_iff, !endswith_spec. naive_solver.
Qed.

(** C9: for every path or iterable of paths that resolve,
    [include_shared_libraries] takes from the files found the metadata
    files, those that end in [.pcm], and the shared libraries, those that
    end in [.so], [.dll] or [.dylib]; on a backend that is not local it
    distributes the libraries and then, in a call of their own, the metadata
    files, which on the Spark backend adds every one of them; on the local
    backend it distributes nothing. *)
Theorem include_shared_libraries_scans_pcm arg all (w : process) :
  all_paths arg = Some all →
  let libraries := libraries_of all in
  let pcm := pcm_of all in
  (∀ path, path ∈ pcm ↔ path ∈ all ∧ ∃ stem, path = stem +:+ ".pcm")
  ∧ (∀ path, path ∈ libraries
             ↔ path ∈ all ∧ ∃ stem, path = stem +:+ ".so"
                                    ∨ path = stem +:+ ".dll"
                                    ∨ path = stem +:+ ".dylib")
  ∧ (isinstance_Local (current_backend w) = false →
     include_shared_libraries arg w
     = (PyRDF.distribute_files (current_backend w) libraries;;
        PyRDF.distribute_files (current_backend w) pcm;;
        PyRDF.declare_shared_libraries libraries) w)
  ∧ (∀ conf, current_backend w = Spark conf →
       include_shared_libraries arg w
       = (Ok tt, add_calls ((AddFile <$> elements libraries)
                              ++ (AddFile <$> elements pcm)
                              ++ [DeclareSharedLibraries libraries]) w))
  ∧ (∀ conf, current_backend w = Local conf →
       include_shared_libraries arg w
       = (Ok tt, add_calls [DeclareSharedLibraries libraries] w)).
Proof.
  intros Hall libraries pcm.
  split; [apply elem_of_pcm_of|]. split; [apply elem_of_libraries_of|].
  pose proof (include_shared_libraries_run arg all w Hall) as Hrun.
  simpl in Hrun. split; [|split].
  - intros Hb. rewrite Hrun.
    destruct (current_backend w) as [c|c|self]; [done| |].
    + unfold mbind, M_bind, Py.bind.
      rewrite !(distribute_files_Spark c).
      unfold PyRDF.declare_shared_libraries, call, Py.modify.
      by rewrite !add_calls_app, <- app_assoc.
    + unfold mbind, M_bind, Py.bind. simpl.
      rewrite (distribute_files_Parsl self libraries).
      destruct (decide (libraries = ∅)) as [Hl|Hl].
      * rewrite (distribute_files_Parsl self pcm).
        destruct (decide (pcm = ∅)) as [Hp|Hp].
        -- by rewrite decide_True.
        -- rewrite decide_False; [done|]. by intros [_ ?].
      * rewrite decide_False; [done|]. by intros [? _].
  - intros conf Hb. rewrite Hrun, Hb. by rewrite <- app_assoc.
  - intros conf Hb. by rewrite Hrun, Hb.
Qed.

End Registration.

(** C7, counterexample: the path [missing.h] does not exist, and
    [include_headers] raises a [TypeError], not a [DistributionIOError]. *)
Lemma include_headers_missing_raises_TypeError :
  RegistrySpec.unresolved Examples.fs "missing.h"
  ∧ ∃ e, PyRDF.include_headers Examples.fs (PyRDF.PathStr "missing.h") imported
         = (Raise e, imported)
         ∧ class_name e = "TypeError"
         ∧ class_name e ≠ "DistributionIOError".
Proof. split; [done|]. eexists. split; [reflexivity|]. done. Qed.

Lemma registration_unresolved_raises_TypeError_witness :
  class_name PyRDF.not_iterable = "TypeError"
  ∧ PyRDF.include_headers Examples.fs
      (PyRDF.PathIter ["inc"; "missing.h"]) Examples.on_spark
    = (Raise PyRDF.not_iterable, Examples.on_spark)
  ∧ PyRDF.include_shared_libraries Examples.fs
      (PyRDF.PathIter ["inc"; "missing.h"]) Examples.on_spark
    = (Raise PyRDF.not_iterable, Examples.on_spark)
  ∧ PyRDF.send_generic_files Examples.fs
      (PyRDF.PathIter ["inc"; "missing.h"]) Examples.on_spark
    = (Raise PyRDF.not_iterable, Examples.on_spark).
Proof.
  apply (registration_unresolved_raises_TypeError Examples.fs
           (PyRDF.PathIter ["inc"; "missing.h"]) Examples.on_spark).
  exists "missing.h". split; [|done].
  apply elem_of_cons. right. apply elem_of_cons. by left.
Defined.

Lemma include_shared_libraries_scans_pcm_witness :
  RegistrySpec.all_paths Examples.fs (PyRDF.PathStr "lib")
  = Some {[ "lib/libfoo.so"; "lib/libfoo_rdict.pcm"; "lib/README" ]}
  ∧ PyRDF.include_shared_libraries Examples.fs (PyRDF.PathStr "lib")
      Examples.on_spark
    = (Ok tt,
       add_calls [AddFile "lib/libfoo.so"; AddFile "lib/libfoo_rdict.pcm";
                  DeclareSharedLibraries {[ "lib/libfoo.so" ]}]
         Examples.on_spark).
Proof.
  assert (RegistrySpec.all_paths Examples.fs (PyRDF.PathStr "lib")
          = Some {[ "lib/libfoo.so"; "lib/libfoo_rdict.pcm"; "lib/README" ]})
    as Hall by (vm_compute; reflexivity).
  split; [exact Hall|].
  destruct (include_shared_libraries_scans_pcm Examples.fs
              (PyRDF.PathStr "lib") _ Examples.on_spark Hall)
    as (_ & _ & _ & Hspark & _).
  rewrite (Hspark ∅ eq_refl). vm_compute. reflexivity.
Defined.

(** C5, at the failing input: with a Parsl backend as the current backend,
    [include_headers] of an existing header dispatches to
    [Parsl.distribute_files], which raises [AttributeError] for the
    attribute [sparkContext] and has sent the header to no worker. *)
Theorem include_headers_on_parsl_raises :
  RegistrySpec.all_paths Examples.fs (PyRDF.PathStr "inc/a.h")
  = Some {[ "inc/a.h" ]}
  ∧ isinstance_Local (current_backend Examples.on_parsl) = false
  ∧ PyRDF.include_headers Examples.fs (PyRDF.PathStr "inc/a.h")
      Examples.on_parsl
    = (Raise (AttributeError "Parsl" "sparkContext"), Examples.on_parsl)
  ∧ calls Examples.on_parsl = [].
Proof.
  split; [vm_compute; reflexivity|]. split; [done|]. split; [|done].
  vm_compute. reflexivity.
Qed.

(** C6, at the failing input: [include_shared_libraries] finds and declares
    the library [lib/libfoo.so] and leaves the set of shared libraries
    empty; [send_generic_files] of an existing file leaves the set of
    generic files empty. *)
Theorem shared_libraries_and_files_not_registered :
  (∃ w', PyRDF.include_shared_libraries Examples.fs
           (PyRDF.PathStr "lib/libfoo.so") imported = (Ok tt, w')
         ∧ calls w' = [DeclareSharedLibraries {[ "lib/libfoo.so" ]}]
         ∧ includes_shared_libraries w' = ∅)
  ∧ (∃ w', PyRDF.send_generic_files Examples.fs
             (PyRDF.PathStr "inc/a.h") imported = (Ok tt, w')
           ∧ includes_files w' = ∅).
Proof.
  split; eexists; (split; [vm_compute; reflexivity|]); done.
Qed.

(** ** The shape of the merge *)

Section Shape.

Context {Range : Type}.

#[local] Abbreviation tree := (@MergeTree.tree Range).
#[local] Abbreviation Leaf := (@MergeTree.Leaf Range).
#[local] Abbreviation Node := (@MergeTree.Node Range).
#[local] Abbreviation dependency_tree := (@MergeTree.dependency_tree Range).
#[local] Abbreviation pair_up := (@MergeTree.pair_up Range).
#[local] Abbreviation rounds := (@MergeTree.rounds Range).
#[local] Abbreviation leaves := (@MergeTree.leaves Range).
#[local] Abbreviation height := (@MergeTree.height Range).

(** The value of a future is the value of its dependency tree. *)
Lemma values_eval {A} (mapper : Range → A) (reducer : A → A → A)
    (ts : list (@Parsl.app Range)) :
  Parsl.values mapper reducer ts
  = (λ o : option tree, MergeTree.eval mapper reducer <$> o)
      <$> Parsl.values Leaf Node ts.
Proof.
  induction ts as [|t ts IH] using rev_ind; [done|].
  rewrite !values_snoc, fmap_app, IH. f_equal. simpl. f_equal.
  destruct t as [x|l1 l2]; [done|]. simpl.
  rewrite !list_lookup_fmap.
  destruct (Parsl.values Leaf Node ts !! l1) as [[t1|]|]; simpl; [|done..].
  destruct (Parsl.values Leaf Node ts !! l2) as [[t2|]|]; simpl; done.
Qed.

Lemma value_eval {A} (mapper : Range → A) (reducer : A → A → A)
    (ts : list (@Parsl.app Range)) f :
  Parsl.value mapper reducer ts f
  = MergeTree.eval mapper reducer <$> dependency_tree ts f.
Proof.
  unfold MergeTree.dependency_tree, Parsl.value.
  rewrite values_eval, list_lookup_fmap.
  by destruct (Parsl.values Leaf Node ts !! f) as [[t|]|].
Qed.

Lemma dependency_tree_snoc (ts : list (@Parsl.app Range)) t g tr :
  dependency_tree ts g = Some tr → dependency_tree (ts ++ [t]) g = Some tr.
Proof.
  unfold MergeTree.dependency_tree. intros H.
  rewrite value_app; [done|]. by eapply value_lt.
Qed.

Lemma dependency_tree_reduce (ts : list (@Parsl.app Range)) l1 l2 t1 t2 :
  dependency_tree ts l1 = Some t1 → dependency_tree ts l2 = Some t2 →
  dependency_tree (ts ++ [Parsl.AppReduce l1 l2]) (length ts)
  = Some (Node t1 t2).
Proof.
  unfold MergeTree.dependency_tree. intros H1 H2.
  rewrite value_snoc. simpl. unfold Parsl.value in H1, H2.
  by rewrite H1, H2.
Qed.

(** One pass of the worklist over an even number of futures at its front
    leaves the futures behind them, followed by the futures of the pairs. *)
Lemma worklist_fold_pass (trees : list tree) :
  ∀ m pending done dtrees (ts : list (@Parsl.app Range)) f ts',
    length pending = 2 * m →
    Forall2 (λ g t, dependency_tree ts g = Some t) pending trees →
    Forall2 (λ g t, dependency_tree ts g = Some t) done dtrees →
    MergeSpec.worklist_fold (pending ++ done) ts f ts' →
    ∃ ts1 new,
      MergeSpec.worklist_fold (done ++ new) ts1 f ts'
      ∧ Forall2 (λ g t, dependency_tree ts1 g = Some t)
          (done ++ new) (dtrees ++ pair_up trees).
Proof.
  intros m. revert trees.
  induction m as [|m IH];
    intros trees pending done dtrees ts f ts' Hlen Hpending Hdone Hfold.
  - destruct pending; [|done]. apply Forall2_nil_inv_l in Hpending as ->.
    exists ts, []. simpl in *. by rewrite !app_nil_r.
  - destruct pending as [|a [|b pending]]; [done|simpl in Hlen; lia|].
    apply Forall2_cons_inv_l in Hpending as (ta & trees1 & Ha & Hpending & ->).
    apply Forall2_cons_inv_l in Hpending as (tb & trees2 & Hb & Hpending & ->).
    simpl in Hfold. inversion Hfold as [|l1 l2 rest ts0 f0 ts0' Hfold']; subst.
    rewrite <- app_assoc in Hfold'.
    destruct (IH trees2 pending (done ++ [length ts])
                (dtrees ++ [Node ta tb]) (ts ++ [Parsl.AppReduce a b]) f ts')
      as (ts1 & new & Hf & Hall).
    { simpl in Hlen. lia. }
    { eapply Forall2_impl; [exact Hpending|].
      intros g t. apply dependency_tree_snoc. }
    { apply Forall2_app.
      - eapply Forall2_impl; [exact Hdone|].
        intros g t. apply dependency_tree_snoc.
      - constructor; [|constructor]. by apply dependency_tree_reduce. }
    { exact Hfold'. }
    exists ts1, (length ts :: new).
    rewrite <- (app_assoc done) in Hf, Hall.
    rewrite <- (app_assoc dtrees) in Hall. split; [exact Hf|exact Hall].
Qed.

Lemma length_pair_up (trees : list tree) m :
  length trees = 2 * m → length (pair_up trees) = m.
Proof.
  revert trees. induction m as [|m IH]; intros trees Hlen.
  - by destruct trees.
  - destruct trees as [|a [|b trees]]; [done|simpl in Hlen; lia|].
    simpl. f_equal. apply IH. simpl in Hlen. lia.
Qed.

(** After [k] rounds over [2 ^ k] futures one future remains, and it is the
    result. *)
Lemma worklist_fold_rounds k :
  ∀ (trees : list tree) results (ts : list (@Parsl.app Range)) f ts',
    length trees = 2 ^ k →
    Forall2 (λ g t, dependency_tree ts g = Some t) results trees →
    MergeSpec.worklist_fold results ts f ts' →
    ∃ t, rounds k trees = [t] ∧ dependency_tree ts' f = Some t.
Proof.
  induction k as [|k IH]; intros trees results ts f ts' Hlen Hall Hfold.
  - destruct trees as [|t [|? ?]]; [done| |done].
    apply Forall2_cons_inv_r in Hall as (g & results' & Hg & Hnil & ->).
    apply Forall2_nil_inv_r in Hnil as ->.
    inversion Hfold; subst. exists t. done.
  - assert (length results = 2 * 2 ^ k) as Hres.
    { rewrite (Forall2_length _ _ _ Hall), Hlen. simpl. lia. }
    destruct (worklist_fold_pass trees (2 ^ k) results [] [] ts f ts')
      as (ts1 & new & Hf & Hnew); [done|done|constructor| |].
    { by rewrite app_nil_r. }
    simpl in Hf, Hnew.
    apply (IH (pair_up trees) new ts1 f ts'); [|done..].
    apply length_pair_up. rewrite Hlen. simpl. lia.
Qed.

(** The worklist over [2 ^ k + m] futures of leaves builds [merge_tree]. *)
Lemma worklist_fold_merge_tree k m (xs : list Range) results
    (ts : list (@Parsl.app Range)) f ts' :
  length xs = 2 ^ k + m → m < 2 ^ k →
  Forall2 (λ g t, dependency_tree ts g = Some t) results (Leaf <$> xs) →
  MergeSpec.worklist_fold results ts f ts' →
  ∃ t, MergeTree.merge_tree k m xs = Some t ∧ dependency_tree ts' f = Some t.
Proof.
  intros Hlen Hm Hall Hfold.
  assert (length results = length xs) as Hres
    by (by rewrite (Forall2_length _ _ _ Hall), length_fmap).
  rewrite <- (take_drop (2 * m) results) in Hfold.
  destruct (worklist_fold_pass (Leaf <$> take (2 * m) xs) m
              (take (2 * m) results) (drop (2 * m) results)
              (Leaf <$> drop (2 * m) xs) ts f ts')
    as (ts1 & new & Hf & Hnew).
  { rewrite length_take. lia. }
  { rewrite fmap_take. by apply Forall2_take. }
  { rewrite fmap_drop. by apply Forall2_drop. }
  { exact Hfold. }
  assert (length ((Leaf <$> drop (2 * m) xs)
                    ++ pair_up (Leaf <$> take (2 * m) xs)) = 2 ^ k) as Hlen'.
  { rewrite length_app, length_fmap, length_drop.
    rewrite (length_pair_up _ m) by (rewrite length_fmap, length_take; lia).
    lia. }
  destruct (worklist_fold_rounds k _ _ _ _ _ Hlen' Hnew Hf) as (t & Ht & Hf').
  exists t. unfold MergeTree.merge_tree. by rewrite Ht.
Qed.

(** *** The leaves and the height of the tree *)

Lemma leaves_pair_up (trees : list tree) m :
  length trees = 2 * m →
  concat (leaves <$> pair_up trees) = concat (leaves <$> trees).
Proof.
  revert trees. induction m as [|m IH]; intros trees Hlen.
  - by destruct trees.
  - destruct trees as [|a [|b trees]]; [done|simpl in Hlen; lia|].
    rewrite !fmap_cons. simpl. rewrite <- app_assoc. do 2 f_equal.
    apply IH. simpl in Hlen. lia.
Qed.

Lemma rounds_leaves k (trees : list tree) t :
  length trees = 2 ^ k → rounds k trees = [t] →
  leaves t = concat (leaves <$> trees).
Proof.
  revert trees. induction k as [|k IH]; intros trees Hlen Ht.
  - simpl in Ht. subst. simpl. by rewrite app_nil_r.
  - simpl in Ht.
    assert (length trees = 2 * 2 ^ k) as Hlen' by (rewrite Hlen; simpl; lia).
    rewrite (IH _ (length_pair_up _ _ Hlen') Ht).
    by apply (leaves_pair_up _ (2 ^ k)).
Qed.

Lemma leaves_Leaf (xs : list Range) : concat (leaves <$> (Leaf <$> xs)) = xs.
Proof.
  induction xs as [|x xs IH]; [done|]. rewrite !fmap_cons. simpl.
  by rewrite IH.
Qed.

Lemma height_pair_up (trees : list tree) m :
  length trees = 2 * S m →
  max_list (height <$> pair_up trees) = S (max_list (height <$> trees)).
Proof.
  revert trees. induction m as [|m IH]; intros trees Hlen.
  - destruct trees as [|a [|b [|c trees]]]; simpl in Hlen; try lia.
    simpl. lia.
  - destruct trees as [|a [|b trees]]; [done|simpl in Hlen; lia|].
    rewrite !fmap_cons. simpl. rewrite IH by (simpl in Hlen; lia). lia.
Qed.

Lemma rounds_height k (trees : list tree) t :
  length trees = 2 ^ k → rounds k trees = [t] →
  height t = k + max_list (height <$> trees).
Proof.
  revert trees. induction k as [|k IH]; intros trees Hlen Ht.
  - simpl in Ht. subst. simpl. lia.
  - simpl in Ht.
    assert (∃ n, 2 ^ k = S n) as [n Hn].
    { pose proof (Nat.pow_nonzero 2 k). destruct (2 ^ k); [lia|by eexists]. }
    assert (length trees = 2 * 2 ^ k) as Hlen' by (rewrite Hlen; simpl; lia).
    rewrite (IH _ (length_pair_up _ _ Hlen') Ht).
    rewrite (height_pair_up _ n) by lia. lia.
Qed.

Lemma height_Leaf (xs : list Range) : max_list (height <$> (Leaf <$> xs)) = 0.
Proof. induction xs as [|x xs IH]; [done|]. rewrite !fmap_cons. simpl. lia. Qed.

Lemma max_list_append (l1 l2 : list nat) :
  max_list (l1 ++ l2) = max_list l1 `max` max_list l2.
Proof. induction l1 as [|x l1 IH]; simpl; [done|]. rewrite IH. lia. Qed.

Lemma rounds_singleton k (trees : list tree) :
  length trees = 2 ^ k → ∃ t, rounds k trees = [t].
Proof.
  revert trees. induction k as [|k IH]; intros trees Hlen.
  - destruct trees as [|t [|? ?]]; [done| |done]. by exists t.
  - simpl. apply IH. apply length_pair_up. rewrite Hlen. simpl. lia.
Qed.

Lemma merge_tree_shape k m (xs : list Range) t :
  length xs = 2 ^ k + m → m < 2 ^ k →
  MergeTree.merge_tree k m xs = Some t →
  leaves t = drop (2 * m) xs ++ take (2 * m) xs
  ∧ height t = k + (if decide (m = 0) then 0 else 1).
Proof.
  intros Hlen Hm. unfold MergeTree.merge_tree. intros Ht.
  set (trees := (Leaf <$> drop (2 * m) xs)
                  ++ pair_up (Leaf <$> take (2 * m) xs)) in *.
  assert (length (Leaf <$> take (2 * m) xs) = 2 * m) as Htake
    by (rewrite length_fmap, length_take; lia).
  assert (length trees = 2 ^ k) as Htrees.
  { subst trees. rewrite length_app, length_fmap, length_drop.
    rewrite (length_pair_up _ m) by done. lia. }
  assert (rounds k trees = [t]) as Hrounds.
  { destruct (rounds_singleton k trees Htrees) as [t' Ht'].
    rewrite Ht' in Ht. simpl in Ht. by injection Ht as ->. }
  split.
  - rewrite (rounds_leaves k trees t Htrees Hrounds). subst trees.
    rewrite fmap_app, concat_app, leaves_Leaf.
    by rewrite (leaves_pair_up _ m), leaves_Leaf.
  - rewrite (rounds_height k trees t Htrees Hrounds). subst trees.
    rewrite fmap_app, max_list_append, height_Leaf. f_equal.
    destruct m as [|m].
    + by rewrite decide_True.
    + rewrite decide_False by done.
      by rewrite (height_pair_up _ m), height_Leaf.
Qed.

End Shape.

(** ** The result of [ProcessAndMerge] for every number of ranges *)

Section Result.

Context {Range A : Type}.
Variable mapper : Range → A.
Variable reducer : A → A → A.

#[local] Abbreviation eval := (MergeTree.eval mapper reducer).

Lemma ProcessAndMerge_tree k m (ranges : list Range)
    (kern : @Parsl.dfk Range) :
  length ranges = 2 ^ k + m → m < 2 ^ k →
  ∃ f ts' t,
    Parsl.ProcessAndMerge mapper reducer ranges kern
    = (Ok (eval t), Parsl.Dfk ts' (Parsl.waits kern ++ [f]))
    ∧ MergeTree.dependency_tree ts' f = Some t
    ∧ MergeTree.merge_tree k m ranges = Some t.
Proof.
  intros Hlen Hm.
  assert (ranges ≠ []) as Hne.
  { intros ->. simpl in Hlen. pose proof (Nat.pow_nonzero 2 k). lia. }
  destruct (ProcessAndMerge_run mapper reducer ranges kern Hne)
    as (f & ts' & Hfold & _ & _ & Hrun).
  assert (Forall2 (λ g t, MergeTree.dependency_tree
                            (Parsl.tasks kern ++ (Parsl.AppMap <$> ranges)) g
                          = Some t)
            (seq (length (Parsl.tasks kern)) (length ranges))
            (MergeTree.Leaf <$> ranges)) as Hall.
  { apply Forall2_same_length_lookup_2.
    - by rewrite length_seq, length_fmap.
    - intros i g tr Hg Htr. apply lookup_seq in Hg as [-> Hi].
      rewrite list_lookup_fmap in Htr.
      destruct (ranges !! i) as [x|] eqn:Hx; [|done]. injection Htr as <-.
      by apply (value_maps MergeTree.Leaf MergeTree.Node). }
  destruct (worklist_fold_merge_tree k m ranges _ _ f ts' Hlen Hm Hall Hfold)
    as (t & Ht & Hdep).
  exists f, ts', t. rewrite Hrun, value_eval, Hdep. done.
Qed.

(** Folding the leaves of a tree serially gives the value of the tree, when
    the reducer is associative. *)
Lemma serial_fold_leaves `{!Assoc (=) reducer} (t : @MergeTree.tree Range) :
  MergeSpec.serial_fold reducer (mapper <$> MergeTree.leaves t)
  = Some (eval t).
Proof.
  induction t as [x|l IHl r IHr]; [done|].
  simpl. rewrite fmap_app. by apply serial_fold_app.
Qed.

(** X1: for every mapper and reducer and every [2 ^ k + m] ranges,
    [m < 2 ^ k], [ProcessAndMerge] returns the value of one tree of reduce
    apps over the map apps, the dependency tree of the future it waits for:
    its leaves, from left to right, are the ranges after the first [2 * m],
    followed by the first [2 * m]. *)
Theorem ProcessAndMerge_dependency_tree k m (ranges : list Range)
    (kern : @Parsl.dfk Range) :
  length ranges = 2 ^ k + m → m < 2 ^ k →
  ∃ f ts' t,
    Parsl.ProcessAndMerge mapper reducer ranges kern
    = (Ok (eval t), Parsl.Dfk ts' (Parsl.waits kern ++ [f]))
    ∧ MergeTree.dependency_tree ts' f = Some t
    ∧ MergeTree.merge_tree k m ranges = Some t
    ∧ MergeTree.leaves t = drop (2 * m) ranges ++ take (2 * m) ranges.
Proof.
  intros Hlen Hm.
  destruct (ProcessAndMerge_tree k m ranges kern Hlen Hm)
    as (f & ts' & t & Hrun & Hdep & Ht).
  exists f, ts', t.
  by destruct (merge_tree_shape k m ranges t Hlen Hm Ht).
Qed.

(** X2: the reduce apps that [ProcessAndMerge] submits form a balanced
    tree: over [2 ^ k + m] ranges, [m < 2 ^ k], the longest chain of reduce
    apps below the final future has length [k] when [m = 0] and [k + 1]
    otherwise, the logarithm of the number of ranges rounded up. *)
Theorem ProcessAndMerge_balanced k m (ranges : list Range)
    (kern : @Parsl.dfk Range) :
  length ranges = 2 ^ k + m → m < 2 ^ k →
  ∃ f ts' t,
    (Parsl.ProcessAndMerge mapper reducer ranges kern).2
    = Parsl.Dfk ts' (Parsl.waits kern ++ [f])
    ∧ MergeTree.dependency_tree ts' f = Some t
    ∧ MergeTree.height t = k + (if decide (m = 0) then 0 else 1)
    ∧ (length ranges ≤ 2 ^ MergeTree.height t)%nat
    ∧ (2 ^ MergeTree.height t < 2 * length ranges)%nat.
Proof.
  intros Hlen Hm.
  destruct (ProcessAndMerge_tree k m ranges kern Hlen Hm)
    as (f & ts' & t & Hrun & Hdep & Ht).
  exists f, ts', t. rewrite Hrun.
  destruct (merge_tree_shape k m ranges t Hlen Hm Ht) as [_ Hh].
  split; [done|]. split; [done|]. split; [done|].
  rewrite Hh, Hlen. destruct (decide (m = 0)) as [->|Hne].
  - rewrite !Nat.add_0_r. lia.
  - rewrite Nat.add_1_r. simpl. lia.
Qed.

(** X3: for every associative reducer and every [2 ^ k + m] ranges,
    [m < 2 ^ k], [ProcessAndMerge] returns the serial left-to-right fold of
    the mapped ranges read from position [2 * m] (the ranges after the first
    [2 * m], then the first [2 * m]); when the number of ranges is a power
    of two, that is the serial fold of the mapped ranges in range order. *)
Theorem ProcessAndMerge_fold_from `{!Assoc (=) reducer} k m
    (ranges : list Range) (kern : @Parsl.dfk Range) :
  length ranges = 2 ^ k + m → m < 2 ^ k →
  ∃ v,
    (Parsl.ProcessAndMerge mapper reducer ranges kern).1 = Ok v
    ∧ MergeSpec.serial_fold reducer
        (mapper <$> (drop (2 * m) ranges ++ take (2 * m) ranges)) = Some v
    ∧ (m = 0 → MergeSpec.serial_fold reducer (mapper <$> ranges) = Some v).
Proof.
  intros Hlen Hm.
  destruct (ProcessAndMerge_tree k m ranges kern Hlen Hm)
    as (f & ts' & t & Hrun & Hdep & Ht).
  destruct (merge_tree_shape k m ranges t Hlen Hm Ht) as [Hleaves _].
  exists (eval t). rewrite Hrun. split; [done|].
  rewrite <- Hleaves. split; [apply serial_fold_leaves|].
  intros ->. rewrite <- (serial_fold_leaves t), Hleaves. simpl.
  by rewrite app_nil_r.
Qed.

End Result.

Lemma ProcessAndMerge_dependency_tree_witness :
  ∃ f ts' t,
    Parsl.ProcessAndMerge (λ x : nat, [x]) app [1; 2; 3; 4; 5]
      (Parsl.Dfk [] [])
    = (Ok (MergeTree.eval (λ x : nat, [x]) app t), Parsl.Dfk ts' ([] ++ [f]))
    ∧ MergeTree.dependency_tree ts' f = Some t
    ∧ MergeTree.merge_tree 2 1 [1; 2; 3; 4; 5] = Some t
    ∧ MergeTree.leaves t = drop (2 * 1) [1; 2; 3; 4; 5]
                             ++ take (2 * 1) [1; 2; 3; 4; 5].
Proof.
  apply (ProcessAndMerge_dependency_tree (λ x : nat, [x]) app 2 1
           [1; 2; 3; 4; 5] (Parsl.Dfk [] [])).
  - reflexivity.
  - simpl. lia.
Defined.

Lemma ProcessAndMerge_balanced_witness :
  ∃ f ts' t,
    (Parsl.ProcessAndMerge (λ x : nat, [x]) app [1; 2; 3; 4; 5]
       (Parsl.Dfk [] [])).2
    = Parsl.Dfk ts' ([] ++ [f])
    ∧ MergeTree.dependency_tree ts' f = Some t
    ∧ MergeTree.height t = 2 + (if decide (1 = 0) then 0 else 1)
    ∧ (length [1; 2; 3; 4; 5] ≤ 2 ^ MergeTree.height t)%nat
    ∧ (2 ^ MergeTree.height t < 2 * length [1; 2; 3; 4; 5])%nat.
Proof.
  apply (ProcessAndMerge_balanced (λ x : nat, [x]) app 2 1
           [1; 2; 3; 4; 5] (Parsl.Dfk [] [])).
  - reflexivity.
  - simpl. lia.
Defined.

Lemma ProcessAndMerge_fold_from_witness :
  ∃ v,
    (Parsl.ProcessAndMerge (λ x : nat, [x]) app [1; 2; 3; 4; 5]
       (Parsl.Dfk [] [])).1 = Ok v
    ∧ MergeSpec.serial_fold app
        ((λ x : nat, [x]) <$> (drop (2 * 1) [1; 2; 3; 4; 5]
                                 ++ take (2 * 1) [1; 2; 3; 4; 5])) = Some v
    ∧ (1 = 0 → MergeSpec.serial_fold app
                 ((λ x : nat, [x]) <$> [1; 2; 3; 4; 5]) = Some v).
Proof.
  apply (ProcessAndMerge_fold_from (λ x : nat, [x]) app 2 1
           [1; 2; 3; 4; 5] (Parsl.Dfk [] [])).
  - reflexivity.
  - simpl. lia.
Defined.

(** ** More on the construction of the Parsl backend *)

Section Construction.

Variable globals : string → option (gmap string atom → exn + executor).
Variable config_error : list executor → option exn.
Variable load_error : Config → option exn.
Variable type_error_text : call_error → string.

#[local] Abbreviation make_executor :=
  (Parsl.make_executor globals type_error_text).
#[local] Abbreviation __init__ :=
  (Parsl.__init__ globals config_error load_error type_error_text).
#[local] Abbreviation use :=
  (PyRDF.use globals config_error load_error type_error_text).

Lemma get_partitions_cases (self : parsl_backend) (w w' : process) o :
  Parsl._get_partitions self w = (o, w') →
  w' = w
  ∧ ((∃ n, o = Ok n ∧ n ≠ 0%Z)
     ∨ (Parsl.truthy (npartitions self) = false
        ∧ ∃ e es, executors (parslConfig self) = e :: es
                  ∧ max_threads e = None
                  ∧ o = Raise (AttributeError (executor_class e)
                                 "max_threads"))
     ∨ (Parsl.truthy (npartitions self) = false
        ∧ executors (parslConfig self) = []
        ∧ o = Raise (IndexError "list index out of range"))).
Proof.
  unfold Parsl._get_partitions, Parsl.executor0_max_threads.
  unfold mbind, M_bind, Py.bind, Parsl.int, mret, M_ret, Py.ret, Py.raise.
  intros H.
  destruct (npartitions self) as [n|] eqn:Hn; simpl in H.
  - destruct (Z.eqb_spec n 0) as [->|Hne]; simpl in H.
    + destruct (executors (parslConfig self)) as [|e es] eqn:He.
      * injection H as <- <-. split; [done|]. right. right. done.
      * destruct (max_threads e) as [[mt|]|] eqn:Hmt; simpl in H.
        -- destruct (Z.eqb_spec mt 0) as [->|Hmt0]; simpl in H;
             injection H as <- <-; (split; [done|]); left; by eexists.
        -- injection H as <- <-. split; [done|]. left. by eexists.
        -- injection H as <- <-. split; [done|]. right. left.
           split; [done|]. by exists e, es.
    + injection H as <- <-. split; [done|]. left. by eexists.
  - destruct (executors (parslConfig self)) as [|e es] eqn:He.
    + injection H as <- <-. split; [done|]. right. right. done.
    + destruct (max_threads e) as [[mt|]|] eqn:Hmt; simpl in H.
      * destruct (Z.eqb_spec mt 0) as [->|Hmt0]; simpl in H;
          injection H as <- <-; (split; [done|]); left; by eexists.
      * injection H as <- <-. split; [done|]. left. by eexists.
      * injection H as <- <-. split; [done|]. right. left.
        split; [done|]. by exists e, es.
Qed.

(** X4: [_get_partitions] never changes the process and never returns 0:
    it returns a non-zero integer, or it raises because it had to read
    [max_threads] (no [npartitions], or 0) from an executor without that
    attribute. *)
Theorem get_partitions_nonzero (self : parsl_backend) (w w' : process) o :
  Parsl._get_partitions self w = (o, w') →
  w' = w
  ∧ ((∃ n, o = Ok n ∧ n ≠ 0%Z)
     ∨ (Parsl.truthy (npartitions self) = false
        ∧ ∃ e es, executors (parslConfig self) = e :: es
                  ∧ max_threads e = None
                  ∧ o = Raise (AttributeError (executor_class e)
                                 "max_threads"))
     ∨ (Parsl.truthy (npartitions self) = false
        ∧ executors (parslConfig self) = []
        ∧ o = Raise (IndexError "list index out of range"))).
Proof. apply get_partitions_cases. Qed.

Lemma get_partitions_configured (self : parsl_backend) (w : process) c :
  npartitions self = Some c → c ≠ 0%Z →
  Parsl._get_partitions self w = (Ok c, w).
Proof.
  intros Hn Hc. unfold Parsl._get_partitions. rewrite Hn. simpl.
  destruct (Z.eqb_spec c 0); [done|]. done.
Qed.

Lemma make_executor_state conf (w w' : process) o :
  make_executor conf w = (o, w') →
  w' = w ∧ ((∃ ex, o = Ok ex) ∨ (∃ e, o = Raise e)).
Proof.
  unfold Parsl.make_executor, Parsl.globals_getitem.
  unfold mbind, M_bind, Py.bind, mret, M_ret, Py.ret, Py.raise. intros H.
  repeat (case_match; simplify_eq; try (split; [done|]; eauto)).
Qed.

(** The process after [parsl.clear()] and after [parsl.load] of a
    configuration. *)
Lemma parsl_clear_load cfg (w : process) :
  Parsl.parsl_clear w = (Ok tt, set_parsl_loaded None (add_calls [ParslClear] w))
  ∧ Parsl.parsl_load load_error cfg
      (set_parsl_loaded None (add_calls [ParslClear] w))
    = match load_error cfg with
      | Some e => (Raise e, set_parsl_loaded None (add_calls [ParslClear] w))
      | None => (Ok tt, set_parsl_loaded (Some cfg)
                          (add_calls [ParslClear; ParslLoad cfg] w))
      end.
Proof.
  split; [done|].
  unfold Parsl.parsl_load, call, Py.modify, Py.gets.
  unfold mbind, M_bind, Py.bind. simpl.
  destruct (load_error cfg); [done|]. simpl.
  unfold set_parsl_loaded, add_calls. simpl. by rewrite <- app_assoc.
Qed.

(** The ways in which [Parsl.__init__] ends: the executor is not built,
    its configuration is not built, [parsl.load] raises, or
    [_get_partitions] decides. *)
Lemma Parsl_init_cases conf (w : process) :
  (∃ e, make_executor conf w = (Raise e, w)
        ∧ __init__ conf w = (Raise e, w))
  ∨ (∃ ex e,
       make_executor conf w = (Ok ex, w)
       ∧ config_error [ex] = Some e
       ∧ __init__ conf w = (Raise e, w))
  ∨ (∃ ex e,
       make_executor conf w = (Ok ex, w)
       ∧ config_error [ex] = None
       ∧ load_error (MkConfig [ex]) = Some e
       ∧ __init__ conf w
         = (Raise e, set_parsl_loaded None (add_calls [ParslClear] w)))
  ∨ (∃ ex o,
       make_executor conf w = (Ok ex, w)
       ∧ config_error [ex] = None
       ∧ load_error (MkConfig [ex]) = None
       ∧ let cfg := MkConfig [ex] in
         let w1 := set_parsl_loaded (Some cfg)
                     (add_calls [ParslClear; ParslLoad cfg] w) in
         Parsl._get_partitions (ParslBackend conf (Parsl.Dist_init conf) cfg)
           w1 = (o, w1)
         ∧ __init__ conf w
           = (match o with
              | Ok n => Ok (ParslBackend conf (Some n) cfg)
              | Raise e => Raise e
              | Blocked => Blocked
              | OutOfFuel => OutOfFuel
              end, w1)).
Proof.
  destruct (make_executor conf w) as [o w0] eqn:Hex.
  destruct (make_executor_state conf w w0 o Hex) as [-> [[ex ->]|[e ->]]].
  - right.
    destruct (config_error [ex]) as [e|] eqn:Hce.
    { left. exists ex, e. split; [done|]. split; [done|].
      unfold Parsl.__init__. erewrite bind_Ok by exact Hex.
      erewrite bind_Raise; [done|].
      unfold Parsl.make_config. by rewrite Hce. }
    assert (Parsl.make_config config_error [ex] w = (Ok (MkConfig [ex]), w))
      as Hcfg by (unfold Parsl.make_config; by rewrite Hce).
    right.
    destruct (parsl_clear_load (MkConfig [ex]) w) as [Hclear Hload].
    destruct (load_error (MkConfig [ex])) as [e|] eqn:Hle.
    + left. exists ex, e. split; [done|]. split; [done|]. split; [done|].
      unfold Parsl.__init__. erewrite bind_Ok by exact Hex.
      erewrite bind_Ok by exact Hcfg.
      erewrite bind_Ok by exact Hclear.
      by erewrite bind_Raise by exact Hload.
    + right.
      set (cfg := MkConfig [ex]) in *.
      set (w1 := set_parsl_loaded (Some cfg)
                   (add_calls [ParslClear; ParslLoad cfg] w)) in *.
      destruct (Parsl._get_partitions
                  (ParslBackend conf (Parsl.Dist_init conf) cfg) w1)
        as [o w2] eqn:Hn.
      pose proof (get_partitions_state _ _ _ _ Hn) as ->.
      exists ex, o. split; [done|]. split; [done|]. split; [done|].
      split; [done|].
      unfold Parsl.__init__. erewrite bind_Ok by exact Hex.
      erewrite bind_Ok by exact Hcfg.
      erewrite bind_Ok by exact Hclear.
      erewrite bind_Ok by exact Hload.
      unfold mbind at 1, M_bind, Py.bind. rewrite Hn.
      by destruct o.
  - left. exists e. split; [done|].
    unfold Parsl.__init__. by erewrite bind_Raise by exact Hex.
Qed.

(** X5: a Parsl backend that [Parsl.__init__] returns keeps the
    configuration it was built from and has an integer partition count that
    is not 0; a non-zero integer under the key [npartitions] of the
    configuration is that count. *)
Theorem Parsl_init_instance conf (w w' : process) (self : parsl_backend) :
  __init__ conf w = (Ok self, w') →
  config self = conf
  ∧ ∃ n, npartitions self = Some n
         ∧ n ≠ 0%Z
         ∧ ∀ c, conf !! "npartitions" = Some (CAtom (AInt c)) → c ≠ 0%Z →
                n = c.
Proof.
  intros H.
  destruct (Parsl_init_cases conf w)
    as [(e & _ & Hinit)|[(ex & e & _ & _ & Hinit)
                        |[(ex & e & _ & _ & _ & Hinit)
                         |(ex & o & _ & _ & _ & Hn & Hinit)]]];
    [congruence|congruence|congruence|].
  simpl in Hn, Hinit. rewrite Hinit in H.
  destruct o as [n| | |]; try done. injection H as <- <-.
  split; [done|]. exists n. split; [done|].
  destruct (get_partitions_cases _ _ _ _ Hn)
    as [_ [(n' & [= <-] & Hn')|[(_ & ? & ? & _ & _ & ?)|(_ & _ & ?)]]];
    try done.
  split; [done|]. intros c Hc Hc0.
  rewrite (get_partitions_configured _ _ c) in Hn; [by injection Hn| |done].
  simpl. unfold Parsl.Dist_init. by rewrite Hc.
Qed.

(** X6: [Parsl.__init__] raises in one of three ways.  The executor, or the
    configuration that holds it, could not be built: the process is as it
    was.  Both were built and [parsl.load] raised because the executor did
    not start: [parsl.clear()] has been called, the configuration that parsl
    held is forgotten and none is loaded.  The executor was built and
    started, no partition count is configured and the executor has no
    [max_threads]: [AttributeError] is raised after [parsl.clear()] and
    [parsl.load], and the configuration of the new executor stays loaded. *)
Theorem Parsl_init_raises conf (w w' : process) e :
  __init__ conf w = (Raise e, w') →
  ((make_executor conf w = (Raise e, w)
    ∨ ∃ ex, make_executor conf w = (Ok ex, w) ∧ config_error [ex] = Some e)
   ∧ w' = w)
  ∨ (∃ ex, make_executor conf w = (Ok ex, w)
           ∧ config_error [ex] = None
           ∧ load_error (MkConfig [ex]) = Some e
           ∧ parsl_loaded w' = None
           ∧ w' = set_parsl_loaded None (add_calls [ParslClear] w))
  ∨ (∃ ex, make_executor conf w = (Ok ex, w)
           ∧ config_error [ex] = None
           ∧ load_error (MkConfig [ex]) = None
           ∧ max_threads ex = None
           ∧ Parsl.truthy (Parsl.Dist_init conf) = false
           ∧ e = AttributeError (executor_class ex) "max_threads"
           ∧ w' = set_parsl_loaded (Some (MkConfig [ex]))
                    (add_calls [ParslClear; ParslLoad (MkConfig [ex])] w)).
Proof.
  intros H.
  destruct (Parsl_init_cases conf w)
    as [(e' & Hex & Hinit)|[(ex & e' & Hex & Hce & Hinit)
                           |[(ex & e' & Hex & Hce & Hle & Hinit)
                            |(ex & o & Hex & Hce & Hle & Hn & Hinit)]]].
  - left. rewrite Hinit in H. injection H as <- <-.
    split; [by left|done].
  - left. rewrite Hinit in H. injection H as <- <-.
    split; [right; by exists ex|done].
  - right. left. rewrite Hinit in H. injection H as <- <-.
    exists ex. done.
  - right. right. simpl in Hn, Hinit. rewrite Hinit in H.
    destruct o as [n|e'| |]; try done. injection H as <- <-.
    exists ex. split; [done|]. split; [done|]. split; [done|].
    destruct (get_partitions_cases _ _ _ _ Hn)
      as [_ [(n' & ? & _)|[(Ht & e0 & es & He & Hmt & Ho)|(_ & ? & _)]]];
      try done.
    simpl in He, Ht. injection He as <- <-. injection Ho as ->. done.
Qed.

(** X7: [Parsl.distribute_files] returns normally exactly on the empty set;
    for every other set it raises [AttributeError] for [sparkContext]; it
    never changes the process. *)
Theorem Parsl_distribute_files_only_empty (self : parsl_backend)
    (includes_list : gset string) (w : process) :
  (includes_list = ∅ →
   Parsl.distribute_files self includes_list w = (Ok tt, w))
  ∧ (includes_list ≠ ∅ →
     Parsl.distribute_files self includes_list w
     = (Raise (AttributeError "Parsl" "sparkContext"), w)).
Proof.
  rewrite distribute_files_Parsl.
  split; intros H; [by rewrite decide_True|by rewrite decide_False].
Qed.

(** The ways in which [use] ends. *)
Lemma use_cases name conf (w : process) :
  (∃ e, use name conf w = (Raise e, w))
  ∨ ((name = "local"
        ∧ use name conf w = (Ok tt, set_current_backend (Local conf) w))
     ∨ (name = "spark"
        ∧ use name conf w = (Ok tt, set_current_backend (Spark conf) w))
     ∨ (name = "parsl"
        ∧ ∃ ex, let cfg := MkConfig [ex] in
                let w0 := set_parsl_loaded None (add_calls [ParslClear] w) in
                let w1 := set_parsl_loaded (Some cfg)
                            (add_calls [ParslClear; ParslLoad cfg] w) in
                make_executor conf w = (Ok ex, w)
                ∧ ((∃ e, use name conf w = (Raise e, w0))
                   ∨ (∃ e, use name conf w = (Raise e, w1))
                   ∨ (∃ n, n ≠ 0%Z
                           ∧ use name conf w
                             = (Ok tt,
                                set_current_backend
                                  (Parsl (ParslBackend conf (Some n) cfg))
                                  w1))))).
Proof.
  unfold PyRDF.use.
  destruct (bool_decide (name ∈ PyRDF.future_backends)); [left; by eexists|].
  destruct (String.eqb_spec name "local") as [->|Hl]; [right; left; done|].
  destruct (String.eqb_spec name "spark") as [->|Hs];
    [right; right; left; done|].
  destruct (String.eqb_spec name "parsl") as [->|Hp]; [|left; by eexists].
  destruct (Parsl_init_cases conf w)
    as [(e & _ & Hinit)|[(ex & e & _ & _ & Hinit)
                        |[(ex & e & Hex & _ & _ & Hinit)
                         |(ex & o & Hex & _ & _ & Hn & Hinit)]]].
  - left. exists e. by erewrite bind_Raise by exact Hinit.
  - left. exists e. by erewrite bind_Raise by exact Hinit.
  - right. right. right. split; [done|]. exists ex. simpl.
    split; [done|]. left. exists e. by erewrite bind_Raise by exact Hinit.
  - right. right. right. split; [done|]. exists ex. simpl in *.
    split; [done|]. right.
    destruct (get_partitions_cases _ _ _ _ Hn)
      as [_ [(n & -> & Hn0)|[(_ & ? & ? & _ & _ & ->)|(_ & _ & ->)]]].
    + right. exists n. split; [done|].
      by erewrite bind_Ok by exact Hinit.
    + left. eexists. by erewrite bind_Raise by exact Hinit.
    + left. eexists. by erewrite bind_Raise by exact Hinit.
Qed.

(** X8: [use] never touches the three sets of registered files, adds no
    file to a Spark context and declares nothing: files registered before
    are not sent to the workers of the backend selected; when [use] raises,
    the current backend is the one it was. *)
Theorem use_frame name conf (w w' : process) o :
  use name conf w = (o, w') →
  includes_headers w' = includes_headers w
  ∧ includes_shared_libraries w' = includes_shared_libraries w
  ∧ includes_files w' = includes_files w
  ∧ (∃ cs, calls w' = calls w ++ cs
           ∧ Forall (λ c, (∀ filepath, c ≠ AddFile filepath)
                          ∧ (∀ paths, c ≠ DeclareHeaders paths)
                          ∧ (∀ paths, c ≠ DeclareSharedLibraries paths)) cs)
  ∧ (∀ e, o = Raise e → current_backend w' = current_backend w).
Proof.
  intros H.
  destruct (use_cases name conf w)
    as [(e & Hu)|[(_ & Hu)|[(_ & Hu)
       |(_ & ex & Hex & [(e & Hu)|[(e & Hu)|(n & _ & Hu)]])]]];
    simpl in Hu; rewrite Hu in H; injection H as <- <-; simpl.
  - repeat split; try done. exists []. by rewrite app_nil_r.
  - repeat split; try done. exists []. by rewrite app_nil_r.
  - repeat split; try done. exists []. by rewrite app_nil_r.
  - repeat split; try done. eexists. split; [done|].
    constructor; [done|]. constructor.
  - repeat split; try done. eexists. split; [done|].
    constructor; [done|]. constructor; [done|]. constructor.
  - repeat split; try done. eexists. split; [done|].
    constructor; [done|]. constructor; [done|]. constructor.
Qed.

(** X9: when [use] returns, the name was [local], [spark] or [parsl] and the
    current backend is a backend of that class built from the given
    configuration; for [parsl], the configuration that parsl has loaded is
    that of the new backend, whose partition count is not 0. *)
Theorem use_selects name conf (w w' : process) :
  use name conf w = (Ok tt, w') →
  (name = "local" ∧ current_backend w' = Local conf)
  ∨ (name = "spark" ∧ current_backend w' = Spark conf)
  ∨ (name = "parsl"
     ∧ ∃ self n, current_backend w' = Parsl self
                 ∧ config self = conf
                 ∧ npartitions self = Some n ∧ n ≠ 0%Z
                 ∧ parsl_loaded w' = Some (parslConfig self)).
Proof.
  intros H.
  destruct (use_cases name conf w)
    as [(e & Hu)|[(Hn & Hu)|[(Hn & Hu)
       |(Hn & ex & Hex & [(e & Hu)|[(e & Hu)|(n & Hn0 & Hu)]])]]];
    simpl in Hu; rewrite Hu in H; try done; injection H as <-.
  - left. done.
  - right. left. done.
  - right. right. split; [done|]. eexists _, n. simpl. done.
Qed.

End Construction.

Lemma get_partitions_nonzero_witness :
  let self :=
    ParslBackend ∅ (Some 0%Z)
      (MkConfig [Executor "HighThroughputExecutor" None]) in
  let o : outcome Z :=
    Raise (AttributeError "HighThroughputExecutor" "max_threads") in
  imported = imported
  ∧ ((∃ n, o = Ok n ∧ n ≠ 0%Z)
     ∨ (Parsl.truthy (npartitions self) = false
        ∧ ∃ e es, executors (parslConfig self) = e :: es
                  ∧ max_threads e = None
                  ∧ o = Raise (AttributeError (executor_class e)
                                 "max_threads"))
     ∨ (Parsl.truthy (npartitions self) = false
        ∧ executors (parslConfig self) = []
        ∧ o = Raise (IndexError "list index out of range"))).
Proof.
  intros self o.
  apply (get_partitions_nonzero self imported imported o).
  reflexivity.
Defined.

Lemma Parsl_init_instance_witness :
  let conf := <["npartitions" := CAtom (AInt 8)]> Examples.conf in
  let cfg := MkConfig [Executor "ThreadPoolExecutor" (Some (Some 16%Z))] in
  let self := ParslBackend conf (Some 8%Z) cfg in
  config self = conf
  ∧ ∃ n, npartitions self = Some n
         ∧ n ≠ 0%Z
         ∧ ∀ c, conf !! "npartitions" = Some (CAtom (AInt c)) → c ≠ 0%Z →
                n = c.
Proof.
  intros conf cfg self.
  apply (Parsl_init_instance Examples.globals Examples.config_error
           Examples.load_error Examples.type_error_text conf Examples.earlier
           (Process (Some cfg) (Local ∅) ∅ ∅ ∅ [ParslClear; ParslLoad cfg])
           self).
  vm_compute. reflexivity.
Defined.

Lemma Parsl_init_raises_witness :
  let make_executor :=
    Parsl.make_executor Examples.globals Examples.type_error_text in
  let conf : gmap string cval :=
    {[ "executor" := CAtom (AStr "ThreadPoolExecutor");
       "parameters" := CDict {[ "max_threads" := AInt 0 ]} ]} in
  let e := ValueError "max_workers must be greater than 0" in
  let w := Examples.earlier in
  let w' := Process None (Local ∅) ∅ ∅ ∅ [ParslClear] in
  ((make_executor conf w = (Raise e, w)
    ∨ ∃ ex, make_executor conf w = (Ok ex, w)
            ∧ Examples.config_error [ex] = Some e)
   ∧ w' = w)
  ∨ (∃ ex, make_executor conf w = (Ok ex, w)
           ∧ Examples.config_error [ex] = None
           ∧ Examples.load_error (MkConfig [ex]) = Some e
           ∧ parsl_loaded w' = None
           ∧ w' = set_parsl_loaded None (add_calls [ParslClear] w))
  ∨ (∃ ex, make_executor conf w = (Ok ex, w)
           ∧ Examples.config_error [ex] = None
           ∧ Examples.load_error (MkConfig [ex]) = None
           ∧ max_threads ex = None
           ∧ Parsl.truthy (Parsl.Dist_init conf) = false
           ∧ e = AttributeError (executor_class ex) "max_threads"
           ∧ w' = set_parsl_loaded (Some (MkConfig [ex]))
                    (add_calls [ParslClear; ParslLoad (MkConfig [ex])] w)).
Proof.
  intros make_executor conf e w w'.
  apply (Parsl_init_raises Examples.globals Examples.config_error
           Examples.load_error Examples.type_error_text conf w w' e).
  vm_compute. reflexivity.
Defined.

Lemma Parsl_distribute_files_only_empty_witness :
  let self :=
    ParslBackend Examples.conf (Some 16%Z)
      (MkConfig [Executor "ThreadPoolExecutor" (Some (Some 16%Z))]) in
  Parsl.distribute_files self ∅ Examples.on_parsl = (Ok tt, Examples.on_parsl)
  ∧ Parsl.distribute_files self {[ "inc/a.h" ]} Examples.on_parsl
    = (Raise (AttributeError "Parsl" "sparkContext"), Examples.on_parsl).
Proof.
  intros self. split.
  - apply (proj1 (Parsl_distribute_files_only_empty self ∅ Examples.on_parsl)).
    reflexivity.
  - apply (proj2 (Parsl_distribute_files_only_empty self {[ "inc/a.h" ]}
                    Examples.on_parsl)).
    apply non_empty_singleton_L.
Defined.

Lemma use_frame_witness :
  let cfg := MkConfig [Executor "ThreadPoolExecutor" (Some (Some 16%Z))] in
  let w := Process None (Spark ∅) {[ "inc/a.h" ]} ∅ ∅
             [AddFile "inc/a.h"; DeclareHeaders {[ "inc/a.h" ]}] in
  let w' := Process (Some cfg)
              (Parsl (ParslBackend Examples.conf (Some 16%Z) cfg))
              {[ "inc/a.h" ]} ∅ ∅
              [AddFile "inc/a.h"; DeclareHeaders {[ "inc/a.h" ]};
               ParslClear; ParslLoad cfg] in
  includes_headers w' = includes_headers w
  ∧ includes_shared_libraries w' = includes_shared_libraries w
  ∧ includes_files w' = includes_files w
  ∧ (∃ cs, calls w' = calls w ++ cs
           ∧ Forall (λ c, (∀ filepath, c ≠ AddFile filepath)
                          ∧ (∀ paths, c ≠ DeclareHeaders paths)
                          ∧ (∀ paths, c ≠ DeclareSharedLibraries paths)) cs)
  ∧ (∀ e, Ok tt = Raise e → current_backend w' = current_backend w).
Proof.
  intros cfg w w'.
  apply (use_frame Examples.globals Examples.config_error
           Examples.load_error Examples.type_error_text "parsl"
           Examples.conf w w' (Ok tt)).
  vm_compute. reflexivity.
Defined.

Lemma use_selects_witness :
  let cfg := MkConfig [Executor "ThreadPoolExecutor" (Some (Some 16%Z))] in
  let w' := Process (Some cfg)
              (Parsl (ParslBackend Examples.conf (Some 16%Z) cfg))
              ∅ ∅ ∅ [ParslClear; ParslLoad cfg] in
  ("parsl" = "local" ∧ current_backend w' = Local Examples.conf)
  ∨ ("parsl" = "spark" ∧ current_backend w' = Spark Examples.conf)
  ∨ ("parsl" = "parsl"
     ∧ ∃ self n, current_backend w' = Parsl self
                 ∧ config self = Examples.conf
                 ∧ npartitions self = Some n ∧ n ≠ 0%Z
                 ∧ parsl_loaded w' = Some (parslConfig self)).
Proof.
  intros cfg w'.
  apply (use_selects Examples.globals Examples.config_error
           Examples.load_error Examples.type_error_text "parsl"
           Examples.conf imported w').
  vm_compute. reflexivity.
Defined.

(** ** More on the registration of files *)

(** A path that ends in [.pcm] does not end in a suffix of a shared
    library. *)
Lemma endswith_pcm_not_library (path : string) :
  endswith path ".pcm" = true →
  endswith_any path PyRDF.shared_library_formats = false.
Proof.
  unfold endswith_any, PyRDF.shared_library_formats. simpl.
  induction path as [|c path IH]; [done|].
  rewrite !(endswith_unfold (String c path)).
  destruct (String.eqb_spec (String c path) ".pcm") as [E|_].
  { injection E as -> ->. intros _. by vm_compute. }
  intros H.
  destruct (String.eqb_spec (String c path) ".so") as [E|_].
  { injection E as -> ->. by vm_compute in H. }
  destruct (String.eqb_spec (String c path) ".dll") as [E|_].
  { injection E as -> ->. by vm_compute in H. }
  destruct (String.eqb_spec (String c path) ".dylib") as [E|_].
  { injection E as -> ->. by vm_compute in H. }
  by apply IH.
Qed.

Section MoreRegistration.

Variable fs : string → option fsnode.

#[local] Abbreviation pcm_of all :=
  (filter (λ filepath : string, endswith filepath ".pcm") all : gset string).
#[local] Abbreviation libraries_of all :=
  (filter (λ filepath : string,
             endswith_any filepath PyRDF.shared_library_formats) all
   : gset string).

(** X10: [_get_paths_set_from_string] returns, for a directory, exactly the
    files beneath it at any depth, each under the path joined from the
    directory down; for a file, the path itself; for a path that does not
    exist, [None]. *)
Theorem get_paths_set_from_string_cases path :
  (∀ entries, fs path = Some (FDir entries) →
     ∃ s, PyRDF._get_paths_set_from_string fs path = Some s
          ∧ ∀ file, file ∈ s
                    ↔ RegistrySpec.file_beneath path (FDir entries) file)
  ∧ (fs path = Some FFile →
     PyRDF._get_paths_set_from_string fs path = Some {[ path ]})
  ∧ (fs path = None → PyRDF._get_paths_set_from_string fs path = None).
Proof.
  split; [|split].
  - intros entries. apply get_paths_directory.
  - apply get_paths_file.
  - intros H. unfold PyRDF._get_paths_set_from_string, os.isdir, os.isfile.
    by rewrite H.
Qed.

(** X11: the two sets that [_check_pcm_in_library_path] returns are
    disjoint sets of files found under the path; a file found that is in
    neither ends in none of [.pcm], [.so], [.dll], [.dylib]; the process is
    not changed. *)
Theorem check_pcm_in_library_path_classifies path (w w' : process) pcm libs :
  PyRDF._check_pcm_in_library_path fs path w = (Ok (pcm, libs), w') →
  w' = w
  ∧ ∃ s, PyRDF._get_paths_set_from_string fs path = Some s
         ∧ pcm ⊆ s ∧ libs ⊆ s ∧ pcm ## libs
         ∧ ∀ file, file ∈ s → file ∉ pcm → file ∉ libs →
                   endswith file ".pcm" = false
                   ∧ endswith_any file PyRDF.shared_library_formats = false.
Proof.
  intros H.
  destruct (PyRDF._get_paths_set_from_string fs path) as [s|] eqn:Hs.
  - rewrite (check_pcm_Ok fs path s w Hs) in H. injection H as <- <- <-.
    split; [done|]. exists s. split; [done|].
    split; [by intros file [_ ?]%elem_of_filter|].
    split; [by intros file [_ ?]%elem_of_filter|].
    split.
    + intros file Hp Hl. apply elem_of_filter in Hp as [Hp _].
      apply elem_of_filter in Hl as [Hl _].
      apply Is_true_true in Hp, Hl.
      by rewrite (endswith_pcm_not_library file Hp) in Hl.
    + intros file Hin Hp Hl. split.
      * destruct (endswith file ".pcm") eqn:E; [|done].
        exfalso. apply Hp. apply elem_of_filter. by rewrite E.
      * destruct (endswith_any file PyRDF.shared_library_formats) eqn:E;
          [|done].
        exfalso. apply Hl. apply elem_of_filter. by rewrite E.
  - apply unresolved_None in Hs.
    by rewrite (check_pcm_Raise fs path w Hs) in H.
Qed.

Lemma all_paths_cases arg :
  (∃ all, RegistrySpec.all_paths fs arg = Some all)
  ∨ (RegistrySpec.all_paths fs arg = None
     ∧ ∃ path, path ∈ RegistrySpec.paths_of arg
               ∧ RegistrySpec.unresolved fs path).
Proof.
  destruct (RegistrySpec.all_paths fs arg) as [all|] eqn:H.
  - left. by exists all.
  - right. split; [done|]. by apply all_paths_None.
Qed.

(** X12: when [include_headers] returns, every path resolved; the files
    found have been added to the set of headers, declared, and before that
    sent to the workers on the Spark backend only; nothing else of the
    process has changed. *)
Theorem include_headers_returns arg (w w' : process) :
  PyRDF.include_headers fs arg w = (Ok tt, w') →
  ∃ all pushed,
    RegistrySpec.all_paths fs arg = Some all
    ∧ w' = set_includes_headers (includes_headers w ∪ all)
             (add_calls ((AddFile <$> pushed) ++ [DeclareHeaders all]) w)
    ∧ match current_backend w with
      | Local _ => pushed = []
      | Spark _ => pushed = elements all
      | Parsl _ => pushed = [] ∧ all = ∅
      end.
Proof.
  intros H.
  destruct (all_paths_cases arg) as [[all Hall]|[_ Hun]].
  - rewrite (include_headers_run fs arg all w Hall) in H. simpl in H.
    destruct (current_backend w) as [c|c|self].
    + injection H as <-. by exists all, [].
    + injection H as <-. by exists all, (elements all).
    + case_decide; [|done]. injection H as <-. by exists all, [].
  - destruct (entry_points_unresolved fs arg w Hun) as (Hh & _ & _).
    congruence.
Qed.

(** X13: a second [include_headers] of the same paths returns as the first
    did and leaves the set of headers as the first left it; it makes the
    calls of the first again, so the files are sent and declared once more. *)
Theorem include_headers_again arg (w w1 : process) :
  PyRDF.include_headers fs arg w = (Ok tt, w1) →
  ∃ w2 cs,
    PyRDF.include_headers fs arg w1 = (Ok tt, w2)
    ∧ includes_headers w2 = includes_headers w1
    ∧ calls w1 = calls w ++ cs
    ∧ calls w2 = calls w1 ++ cs.
Proof.
  intros H.
  destruct (all_paths_cases arg) as [[all Hall]|[_ Hun]].
  2:{ destruct (entry_points_unresolved fs arg w Hun) as (Hh & _ & _).
      congruence. }
  rewrite (include_headers_run fs arg all w Hall) in H. simpl in H.
  rewrite (include_headers_run fs arg all w1 Hall). simpl.
  destruct (current_backend w) as [c|c|self] eqn:Hb.
  - injection H as <-. simpl. rewrite Hb.
    eexists _, _. split; [done|]. simpl.
    split; [set_solver|]. done.
  - injection H as <-. simpl. rewrite Hb.
    eexists _, _. split; [done|]. simpl.
    split; [set_solver|]. done.
  - case_decide; [|done]. injection H as <-. simpl. rewrite Hb.
    eexists _, _. split; [reflexivity|]. simpl.
    split; [set_solver|]. split; reflexivity.
Qed.

(** The outcome of an entry point that does not return. *)
Lemma entry_point_raises_cases arg (w : process) :
  ∀ e w',
    PyRDF.include_headers fs arg w = (Raise e, w')
    ∨ PyRDF.include_shared_libraries fs arg w = (Raise e, w')
    ∨ PyRDF.send_generic_files fs arg w = (Raise e, w') →
    w' = w
    ∧ ((e = PyRDF.not_iterable
        ∧ ∃ path, path ∈ RegistrySpec.paths_of arg
                  ∧ RegistrySpec.unresolved fs path)
       ∨ (e = AttributeError "Parsl" "sparkContext"
          ∧ ∃ self, current_backend w = Parsl self)).
Proof.
  intros e w' H.
  destruct (all_paths_cases arg) as [[all Hall]|[_ Hun]].
  - rewrite (include_headers_run fs arg all w Hall),
      (include_shared_libraries_run fs arg all w Hall),
      (send_generic_files_run fs arg all w Hall) in H. simpl in H.
    destruct (current_backend w) as [c|c|self]; [naive_solver..|].
    assert (e = AttributeError "Parsl" "sparkContext" ∧ w' = w) as [-> ->].
    { destruct H as [H|[H|H]]; case_decide; naive_solver. }
    split; [done|]. right. split; [done|]. by exists self.
  - destruct (entry_points_unresolved fs arg w Hun) as (Hh & Hs & Hf).
    rewrite Hh, Hs, Hf in H.
    assert (e = PyRDF.not_iterable ∧ w' = w) as [-> ->] by naive_solver.
    split; [done|]. by left.
Qed.

(** X14: an entry point that raises has changed nothing of the process;
    it raises the [TypeError] of a path that does not resolve, or, on a
    Parsl backend, the [AttributeError] of [distribute_files], and nothing
    else. *)
Theorem entry_points_raise_unchanged arg (w w' : process) e :
  PyRDF.include_headers fs arg w = (Raise e, w')
  ∨ PyRDF.include_shared_libraries fs arg w = (Raise e, w')
  ∨ PyRDF.send_generic_files fs arg w = (Raise e, w') →
  w' = w
  ∧ ((e = PyRDF.not_iterable
      ∧ ∃ path, path ∈ RegistrySpec.paths_of arg
                ∧ RegistrySpec.unresolved fs path)
     ∨ (e = AttributeError "Parsl" "sparkContext"
        ∧ ∃ self, current_backend w = Parsl self)).
Proof. apply entry_point_raises_cases. Qed.

(** X15: whatever the argument and the outcome, no entry point removes a
    path from a set of registered files or changes the current backend:
    [include_headers] only adds to the set of headers, and
    [include_shared_libraries] and [send_generic_files] leave the three sets
    as they are. *)
Theorem registry_never_shrinks arg (w : process) :
  let w1 := (PyRDF.include_headers fs arg w).2 in
  let w2 := (PyRDF.include_shared_libraries fs arg w).2 in
  let w3 := (PyRDF.send_generic_files fs arg w).2 in
  (includes_headers w ⊆ includes_headers w1
   ∧ includes_shared_libraries w1 = includes_shared_libraries w
   ∧ includes_files w1 = includes_files w
   ∧ current_backend w1 = current_backend w)
  ∧ (includes_headers w2 = includes_headers w
     ∧ includes_shared_libraries w2 = includes_shared_libraries w
     ∧ includes_files w2 = includes_files w
     ∧ current_backend w2 = current_backend w)
  ∧ (includes_headers w3 = includes_headers w
     ∧ includes_shared_libraries w3 = includes_shared_libraries w
     ∧ includes_files w3 = includes_files w
     ∧ current_backend w3 = current_backend w).
Proof.
  destruct (all_paths_cases arg) as [[all Hall]|[_ Hun]].
  - rewrite (include_headers_run fs arg all w Hall),
      (include_shared_libraries_run fs arg all w Hall),
      (send_generic_files_run fs arg all w Hall). simpl.
    destruct (current_backend w) as [c|c|self] eqn:Hb; simpl.
    + repeat split; try done. set_solver.
    + repeat split; try done. set_solver.
    + repeat case_decide; simpl; repeat split; try done; set_solver.
  - destruct (entry_points_unresolved fs arg w Hun) as (-> & -> & ->).
    simpl. repeat split; done.
Qed.

(** X16: [send_generic_files] declares nothing and registers nothing:
    whatever the outcome, all it has done is to add files to the Spark
    context, when the current backend is the Spark backend. *)
Theorem send_generic_files_only_distributes arg (w : process) :
  ∃ pushed,
    (PyRDF.send_generic_files fs arg w).2 = add_calls (AddFile <$> pushed) w
    ∧ (pushed ≠ [] → ∃ conf, current_backend w = Spark conf).
Proof.
  destruct (all_paths_cases arg) as [[all Hall]|[_ Hun]].
  - rewrite (send_generic_files_run fs arg all w Hall).
    destruct (current_backend w) as [c|c|self] eqn:Hb.
    + exists []. simpl. by rewrite add_calls_nil.
    + exists (elements all). split; [done|]. by exists c.
    + exists []. rewrite add_calls_nil. split; [by case_decide|done].
  - destruct (entry_points_unresolved fs arg w Hun) as (_ & _ & ->).
    exists []. simpl. by rewrite add_calls_nil.
Qed.

(** X17: on a Parsl backend [include_headers] and [send_generic_files]
    return exactly when every path resolves and no file at all is found,
    and [include_shared_libraries] exactly when every path resolves and
    neither a shared library nor a [.pcm] file is found. *)
Theorem entry_points_on_Parsl arg (w : process) self :
  current_backend w = Parsl self →
  ((∃ w', PyRDF.include_headers fs arg w = (Ok tt, w'))
   ↔ RegistrySpec.all_paths fs arg = Some ∅)
  ∧ ((∃ w', PyRDF.send_generic_files fs arg w = (Ok tt, w'))
     ↔ RegistrySpec.all_paths fs arg = Some ∅)
  ∧ ((∃ w', PyRDF.include_shared_libraries fs arg w = (Ok tt, w'))
     ↔ ∃ all, RegistrySpec.all_paths fs arg = Some all
              ∧ libraries_of all = ∅ ∧ pcm_of all = ∅).
Proof.
  intros Hb.
  destruct (all_paths_cases arg) as [[all Hall]|[Hnone Hun]].
  - rewrite (include_headers_run fs arg all w Hall),
      (include_shared_libraries_run fs arg all w Hall),
      (send_generic_files_run fs arg all w Hall), Hall, Hb. simpl.
    split; [|split].
    + case_decide; [subst; naive_solver|]. split; [by intros [? ?]|].
      intros [= ?]. done.
    + case_decide; [subst; naive_solver|]. split; [by intros [? ?]|].
      intros [= ?]. done.
    + case_decide as Hd.
      * split; [|by eexists]. intros _. by exists all.
      * split; [by intros [? ?]|]. intros (all' & [= <-] & ? & ?).
        by destruct Hd.
  - destruct (entry_points_unresolved fs arg w Hun) as (-> & -> & ->).
    rewrite Hnone. split; [|split]; split; try (by intros [? ?]); try done.
    by intros (? & ? & _).
Qed.

End MoreRegistration.

Lemma get_paths_set_from_string_cases_witness :
  (∃ s, PyRDF._get_paths_set_from_string Examples.fs "inc" = Some s
        ∧ ∀ file, file ∈ s
                  ↔ RegistrySpec.file_beneath "inc"
                      (FDir [("a.h", FFile);
                             ("detail", FDir [("b.h", FFile)])]) file)
  ∧ PyRDF._get_paths_set_from_string Examples.fs "inc/a.h"
    = Some {[ "inc/a.h" ]}
  ∧ PyRDF._get_paths_set_from_string Examples.fs "missing.h" = None.
Proof.
  destruct (get_paths_set_from_string_cases Examples.fs "inc") as (Hd & _ & _).
  destruct (get_paths_set_from_string_cases Examples.fs "inc/a.h")
    as (_ & Hf & _).
  destruct (get_paths_set_from_string_cases Examples.fs "missing.h")
    as (_ & _ & Hn).
  split; [|split].
  - apply Hd. reflexivity.
  - apply Hf. reflexivity.
  - apply Hn. reflexivity.
Defined.

Lemma check_pcm_in_library_path_classifies_witness :
  let pcm : gset string := {[ "lib/libfoo_rdict.pcm" ]} in
  let libs : gset string := {[ "lib/libfoo.so" ]} in
  imported = imported
  ∧ ∃ s, PyRDF._get_paths_set_from_string Examples.fs "lib" = Some s
         ∧ pcm ⊆ s ∧ libs ⊆ s ∧ pcm ## libs
         ∧ ∀ file, file ∈ s → file ∉ pcm → file ∉ libs →
                   endswith file ".pcm" = false
                   ∧ endswith_any file PyRDF.shared_library_formats = false.
Proof.
  intros pcm libs.
  apply (check_pcm_in_library_path_classifies Examples.fs "lib"
           imported imported pcm libs).
  vm_compute. reflexivity.
Defined.

Lemma include_headers_returns_witness :
  let w' := Process None (Spark ∅) {[ "inc/a.h" ]} ∅ ∅
              [AddFile "inc/a.h"; DeclareHeaders {[ "inc/a.h" ]}] in
  ∃ all pushed,
    RegistrySpec.all_paths Examples.fs (PyRDF.PathStr "inc/a.h") = Some all
    ∧ w' = set_includes_headers (includes_headers Examples.on_spark ∪ all)
             (add_calls ((AddFile <$> pushed) ++ [DeclareHeaders all])
                Examples.on_spark)
    ∧ match current_backend Examples.on_spark with
      | Local _ => pushed = []
      | Spark _ => pushed = elements all
      | Parsl _ => pushed = [] ∧ all = ∅
      end.
Proof.
  intros w'.
  apply (include_headers_returns Examples.fs (PyRDF.PathStr "inc/a.h")
           Examples.on_spark w').
  vm_compute. reflexivity.
Defined.

Lemma include_headers_again_witness :
  let w1 := Process None (Spark ∅) {[ "inc/a.h" ]} ∅ ∅
              [AddFile "inc/a.h"; DeclareHeaders {[ "inc/a.h" ]}] in
  ∃ w2 cs,
    PyRDF.include_headers Examples.fs (PyRDF.PathStr "inc/a.h") w1
    = (Ok tt, w2)
    ∧ includes_headers w2 = includes_headers w1
    ∧ calls w1 = calls Examples.on_spark ++ cs
    ∧ calls w2 = calls w1 ++ cs.
Proof.
  intros w1.
  apply (include_headers_again Examples.fs (PyRDF.PathStr "inc/a.h")
           Examples.on_spark w1).
  vm_compute. reflexivity.
Defined.

Lemma entry_points_raise_unchanged_witness :
  let e := AttributeError "Parsl" "sparkContext" in
  Examples.on_parsl = Examples.on_parsl
  ∧ ((e = PyRDF.not_iterable
      ∧ ∃ path, path ∈ RegistrySpec.paths_of (PyRDF.PathStr "lib")
                ∧ RegistrySpec.unresolved Examples.fs path)
     ∨ (e = AttributeError "Parsl" "sparkContext"
        ∧ ∃ self, current_backend Examples.on_parsl = Parsl self)).
Proof.
  intros e.
  apply (entry_points_raise_unchanged Examples.fs (PyRDF.PathStr "lib")
           Examples.on_parsl Examples.on_parsl e).
  right. left. vm_compute. reflexivity.
Defined.

Lemma entry_points_on_Parsl_witness :
  ((∃ w', PyRDF.include_headers Examples.fs (PyRDF.PathStr "inc")
            Examples.on_parsl = (Ok tt, w'))
   ↔ RegistrySpec.all_paths Examples.fs (PyRDF.PathStr "inc") = Some ∅)
  ∧ ((∃ w', PyRDF.send_generic_files Examples.fs (PyRDF.PathStr "inc")
              Examples.on_parsl = (Ok tt, w'))
     ↔ RegistrySpec.all_paths Examples.fs (PyRDF.PathStr "inc") = Some ∅)
  ∧ ((∃ w', PyRDF.include_shared_libraries Examples.fs (PyRDF.PathStr "inc")
              Examples.on_parsl = (Ok tt, w'))
     ↔ ∃ all, RegistrySpec.all_paths Examples.fs (PyRDF.PathStr "inc")
              = Some all
              ∧ filter (λ filepath : string,
                          endswith_any filepath PyRDF.shared_library_formats)
                  all = ∅
              ∧ filter (λ filepath : string, endswith filepath ".pcm") all
                = ∅).
Proof.
  eapply (entry_points_on_Parsl Examples.fs (PyRDF.PathStr "inc")
            Examples.on_parsl).
  reflexivity.
Defined.
